(** * Quotex API service: connection manager and progressive candle fetch

    A shallow embedding of [api_server.py]:

    - [ensure_connection] and [connection_keeper] (lines 52-115) as a
      machine of asyncio tasks that are stepped from one suspension point
      ([await]) to the next, with the global variables of the module as
      the shared state;
    - [get_candles_progressive] (lines 256-299) as a function of the
      request and of the answers of the client.

    The Quotex client is a collaborator outside the service: its answers
    are inputs of the model. *)

From stdpp Require Import base numbers list sets strings pretty gmap.
From Stdlib Require Import ZArith Lia.

Local Open Scope Z_scope.

#[local] Set Warnings "-clear-no-such-hyp".

(** ** Python exceptions that travel through the service *)

(** [HTTPException] is what the handlers raise; [ZeroDivisionError] and
    [TypeError] come from the arithmetic of line 266; [ClientError] stands
    for any exception derived from [Exception] that the client raises;
    [CancelledError] derives from [BaseException] only, so that no
    [except Exception] clause catches it. *)
Inductive exc : Type :=
| HTTPException (status_code : Z) (detail : string)
| ZeroDivisionError
| TypeError
| ClientError (what : string)
| CancelledError.

Definition is_Exception (e : exc) : bool :=
  match e with
  | CancelledError => false
  | _ => true
  end.

#[global] Instance exc_eq_dec : EqDecision exc.
Proof. solve_decision. Defined.

(** ** Progressive candle fetch *)

Module Progressive.

Section WithRuntime.

(** The prices of a candle are floats that the service only compares;
    they are taken in a type with decidable equality. *)
Context {price : Type} `{!EqDecision price}.

(** [str(e)]: the text of an exception is the runtime's and the
    libraries' business. *)
Variable str : exc -> string.

(** Modelled from the spec: the candle that the client library hands
    back, a dict with the six keys of the data model (section 3):
    [time] in seconds since the epoch, the four prices, [volume]. *)
Record Candle : Type := mkCandle {
  time : Z;
  open : price;
  close : price;
  high : price;
  low : price;
  volume : Z
}.

#[global] Instance Candle_eq_dec : EqDecision Candle.
Proof. solve_decision. Defined.

(** [frozenset(d.items())]: the set of the (key, value) pairs of the
    dict, that is the value of every field. *)
Definition CandleKey : Type := Z * price * price * price * price * Z.

Definition frozenset_items (d : Candle) : CandleKey :=
  (time d, open d, close d, high d, low d, volume d).

(** A Python dict keeps the order of first insertion; setting a key
    that is present replaces its value where it stands. *)
Fixpoint dict_set {K V : Type} `{!EqDecision K}
    (k : K) (v : V) (d : list (K * V)) : list (K * V) :=
  match d with
  | [] => [(k, v)]
  | (k', v') :: d' =>
      if decide (k = k') then (k, v) :: d' else (k', v') :: dict_set k v d'
  end.

(** [{key(d): d for d in l}] *)
Definition dict_comprehension {K V : Type} `{!EqDecision K}
    (key : V -> K) (l : list V) : list (K * V) :=
  foldl (fun d x => dict_set (key x) x d) [] l.

(** Every entry of the dict stands under the key of its value. *)
Definition keyed {K V : Type} (key : V -> K) (d : list (K * V)) : Prop :=
  Forall (fun kv => kv.1 = key kv.2) d.

(** [list(d.values())] *)
Definition dict_values {K V : Type} (d : list (K * V)) : list V := d.*2.

(** Line 288. *)
Definition unique_candles (list_candles : list Candle) : list Candle :=
  dict_values (dict_comprehension frozenset_items list_candles).

(** The body of a POST to [/candles/progressive]. *)
Record CandleRequest : Type := mkCandleRequest {
  asset : string;
  period : Z;
  days : Z;
  offset : option Z
}.

(** The arguments of one [client.get_candles] call. *)
Record call : Type := mkCall {
  call_asset : string;
  call_end_time : Z;
  call_offset : Z;
  call_period : Z;
  call_progressive : bool
}.

(** What a retrieval call gives: an exception, or a list of candles
    that may be [None]. *)
Definition answer : Type := exc + option (list Candle).

(** The client, seen from the handler: the answer to a call, given how
    many calls the request has made before it. *)
Definition client_get_candles : Type := nat -> call -> answer.

(** [if candles:] holds for a list that is neither [None] nor empty. *)
Definition truthy (candles : option (list Candle)) : bool :=
  match candles with
  | Some (_ :: _) => true
  | _ => false
  end.

(** The variables that the loop of lines 270-285 updates. *)
Record loop_state : Type := mkLoop {
  list_candles : list Candle;
  end_from_time : Z;
  request_offset : Z
}.

(** [range(size)] *)
Definition range (size : Z) : list Z :=
  Z.of_nat <$> seq 0 (Z.to_nat size).

(** Lines 270-285, for the indices [idxs] that are left; [n] counts
    the calls made so far. The result has the calls issued, in order,
    and the exception raised or the state after the last iteration. *)
Fixpoint progressive_loop (client : client_get_candles) (request : CandleRequest)
    (size : Z) (idxs : list Z) (n : nat) (st : loop_state)
    : list call * (exc + loop_state) :=
  match idxs with
  | [] => ([], inr st)
  | i :: idxs' =>
      let c := mkCall (asset request) (end_from_time st) (request_offset st)
                      (period request) true in
      match client n c with
      | inl e => ([c], inl e)
      | inr candles =>
          let list_candles' :=
            if truthy candles then list_candles st ++ default [] candles
            else list_candles st in
          let offset' :=
            if i >=? size then request_offset st * 2 else request_offset st in
          let st' := mkLoop list_candles' (end_from_time st + offset') offset' in
          let '(calls, r) := progressive_loop client request size idxs' (S n) st' in
          (c :: calls, r)
      end
  end.

(** The dict that the handler returns. *)
Record Response : Type := mkResponse {
  resp_asset : string;
  resp_period : Z;
  resp_days : Z;
  resp_count : Z;
  resp_candles : list Candle
}.

(** Lines 263-296, the block under [try]. [timestamp] is
    [int(get_timestamp_days_ago(request.days))]. In line 266 the
    modulo is evaluated before the sum. *)
Definition progressive_try (timestamp : Z) (client : client_get_candles)
    (request : CandleRequest) : list call * (exc + Response) :=
  let size := days request * 24 in
  if period request =? 0 then ([], inl ZeroDivisionError)
  else
    match offset request with
    | None => ([], inl TypeError)
    | Some off =>
        let end_from_time :=
          (timestamp - timestamp mod period request) + off in
        let '(calls, r) :=
          progressive_loop client request size (range size) 0%nat
            (mkLoop [] end_from_time off) in
        match r with
        | inl e => (calls, inl e)
        | inr st =>
            let unique := unique_candles (list_candles st) in
            (calls,
             inr (mkResponse (asset request) (period request) (days request)
                    (Z.of_nat (length unique)) unique))
        end
    end.

(** Lines 257-299. [conn] is the outcome of [await ensure_connection()]
    in line 259, which stands outside the [try]. *)
Definition get_candles_progressive (conn : exc + unit) (timestamp : Z)
    (client : client_get_candles) (request : CandleRequest)
    : list call * (exc + Response) :=
  match conn with
  | inl e => ([], inl e)
  | inr _ =>
      let '(calls, r) := progressive_try timestamp client request in
      match r with
      | inr resp => (calls, inr resp)
      | inl e =>
          if is_Exception e then (calls, inl (HTTPException 500 (str e)))
          else (calls, inl e)
      end
  end.

End WithRuntime.

Arguments Candle : clear implicits.
Arguments CandleKey : clear implicits.
Arguments answer : clear implicits.
Arguments client_get_candles : clear implicits.
Arguments loop_state : clear implicits.
Arguments Response : clear implicits.

End Progressive.


(** ** Connection manager and keeper *)

Module Connection.

Section WithRuntime.

(** [time.time()] gives a float that the service stores and subtracts in
    [/status] only; its type is left open. *)
Context {instant : Type}.

(** [str(e)], as in [Progressive]. *)
Variable str : exc -> string.

(** The dict [connection_status] of line 26. *)
Record status : Type := mkStatus {
  connected : bool;
  last_error : option string;
  last_connected : option string
}.

(** The client object of line 59; the service only tests whether it is
    there. *)
Inductive Quotex : Type := QuotexClient.

(** Where a call of [ensure_connection] stands: in front of the lock
    (line 56), suspended in one of its three [await]s (lines 68, 87, 90),
    or finished. *)
Inductive caller : Type :=
| Waiting
| AwaitConnect
| AwaitCheck
| AwaitReconnect
| Returned
| Raised (e : exc).

(** Where [connection_keeper] stands: at the head of the loop (line 104),
    suspended in the probe (line 106) or in the sleep (line 115), or
    ended by an exception that left the loop. *)
Inductive keeper_pc : Type :=
| LoopTop
| AwaitProbe
| Sleeping
| Stopped (e : exc).

Inductive actor : Type :=
| Caller (i : nat)
| Keeper.

(** The globals of lines 23-26 and the tasks of the event loop.
    [connection_lock] names the task that is inside
    [async with connection_lock], if any. *)
Record state : Type := mkState {
  client : option Quotex;
  connection_lock : option actor;
  last_connection_time : option instant;
  connection_status : status;
  callers : list caller;
  keeper : keeper_pc
}.

(** What a task does that the others can see: a call of
    [client.connect()], a call of [client.check_connect()], an assignment
    to a key of [connection_status]. *)
Inductive event : Type :=
| Connect (a : actor)
| CheckConnect (a : actor)
| SetItem (a : actor) (key : string).

(** What the world gives a task when it resumes: the result of the
    awaited client call, the clock, and whether the sleep was
    cancelled. *)
Record env : Type := mkEnv {
  connect_answer : exc + (bool * string);
  check_connect_answer : exc + bool;
  now_isoformat : string;
  time_time : instant;
  sleep_cancelled : bool
}.

Definition with_client (c : option Quotex) (s : state) : state :=
  mkState c (connection_lock s) (last_connection_time s)
    (connection_status s) (callers s) (keeper s).

Definition with_lock (l : option actor) (s : state) : state :=
  mkState (client s) l (last_connection_time s)
    (connection_status s) (callers s) (keeper s).

Definition with_time (t : option instant) (s : state) : state :=
  mkState (client s) (connection_lock s) t
    (connection_status s) (callers s) (keeper s).

Definition with_status (st : status) (s : state) : state :=
  mkState (client s) (connection_lock s) (last_connection_time s)
    st (callers s) (keeper s).

Definition with_caller (i : nat) (pc : caller) (s : state) : state :=
  mkState (client s) (connection_lock s) (last_connection_time s)
    (connection_status s) (<[i:=pc]> (callers s)) (keeper s).

Definition with_keeper (k : keeper_pc) (s : state) : state :=
  mkState (client s) (connection_lock s) (last_connection_time s)
    (connection_status s) (callers s) k.

Definition set_connected (b : bool) (st : status) : status :=
  mkStatus b (last_error st) (last_connected st).

Definition set_last_error (m : option string) (st : status) : status :=
  mkStatus (connected st) m (last_connected st).

Definition set_last_connected (t : option string) (st : status) : status :=
  mkStatus (connected st) (last_error st) t.

(** Leaving [async with], by return or by exception, frees the lock. *)
Definition leave (i : nat) (pc : caller) (s : state) : state :=
  with_lock None (with_caller i pc s).

(** Lines 56-68 or 56-87: the lock is free, the task takes it, makes
    the client if there is none, and suspends in the first call. *)
Definition enter (i : nat) (s : state) : state * list event :=
  let s1 :=
    with_client (Some (default QuotexClient (client s)))
      (with_lock (Some (Caller i)) s) in
  if connected (connection_status s)
  then (with_caller i AwaitCheck s1, [CheckConnect (Caller i)])
  else (with_caller i AwaitConnect s1, [Connect (Caller i)]).

(** Lines 68-87, from the answer of the first [connect()]. An
    [HTTPException] raised in line 79 is caught in line 80 like any
    other [Exception]. *)
Definition after_connect (i : nat) (e : env) (s : state) : state * list event :=
  let st := connection_status s in
  let failed (x : exc) (st0 : status) (writes : list event) :=
    let st1 := set_last_error (Some (str x)) (set_connected false st0) in
    (leave i (Raised (HTTPException 503 ("Connection error: " +:+ str x)))
       (with_status st1 s),
     writes ++ [SetItem (Caller i) "connected"; SetItem (Caller i) "last_error"]) in
  match connect_answer e with
  | inr (true, reason) =>
      let st1 :=
        set_last_error None
          (set_last_connected (Some (now_isoformat e)) (set_connected true st)) in
      (with_caller i AwaitCheck
         (with_time (Some (time_time e)) (with_status st1 s)),
       [SetItem (Caller i) "connected"; SetItem (Caller i) "last_connected";
        SetItem (Caller i) "last_error"; CheckConnect (Caller i)])
  | inr (false, reason) =>
      let st1 := set_last_error (Some reason) (set_connected false st) in
      failed (HTTPException 503 ("Failed to connect: " +:+ reason)) st1
        [SetItem (Caller i) "connected"; SetItem (Caller i) "last_error"]
  | inl x =>
      if is_Exception x then failed x st []
      else (leave i (Raised x) s, [])
  end.

(** Lines 87-90, from the answer of [check_connect()]. *)
Definition after_check (i : nat) (e : env) (s : state) : state * list event :=
  match check_connect_answer e with
  | inr true => (leave i Returned s, [])
  | inr false =>
      (with_caller i AwaitReconnect
         (with_status (set_connected false (connection_status s)) s),
       [SetItem (Caller i) "connected"; Connect (Caller i)])
  | inl x => (leave i (Raised x) s, [])
  end.

(** Lines 90-98, from the answer of the second [connect()]. *)
Definition after_reconnect (i : nat) (e : env) (s : state) : state * list event :=
  let st := connection_status s in
  match connect_answer e with
  | inr (true, reason) =>
      let st1 :=
        set_last_connected (Some (now_isoformat e)) (set_connected true st) in
      (leave i Returned (with_time (Some (time_time e)) (with_status st1 s)),
       [SetItem (Caller i) "connected"; SetItem (Caller i) "last_connected"])
  | inr (false, reason) =>
      (leave i (Raised (HTTPException 503 ("Reconnection failed: " +:+ reason)))
         (with_status (set_last_error (Some reason) st) s),
       [SetItem (Caller i) "last_error"])
  | inl x => (leave i (Raised x) s, [])
  end.

(** One step of the [i]-th call of [ensure_connection] (lines 52-98):
    from where it stands to its next suspension or to its end. A task
    in front of a held lock, a finished task or a task that does not
    exist does nothing. *)
Definition ensure_connection (i : nat) (e : env) (s : state) : state * list event :=
  match callers s !! i with
  | Some Waiting =>
      match connection_lock s with
      | None => enter i s
      | Some _ => (s, [])
      end
  | Some AwaitConnect => after_connect i e s
  | Some AwaitCheck => after_check i e s
  | Some AwaitReconnect => after_reconnect i e s
  | _ => (s, [])
  end.

(** Line 110 and line 113. *)
Definition mark_down (s : state) : state * list event :=
  (with_keeper Sleeping
     (with_status (set_connected false (connection_status s)) s),
   [SetItem Keeper "connected"]).

(** One step of [connection_keeper] (lines 101-115). The task never
    touches [connection_lock]. *)
Definition connection_keeper (e : env) (s : state) : state * list event :=
  match keeper s with
  | LoopTop =>
      if connected (connection_status s) then
        match client s with
        | Some _ => (with_keeper AwaitProbe s, [CheckConnect Keeper])
        | None => mark_down s
        end
      else (with_keeper Sleeping s, [])
  | AwaitProbe =>
      match check_connect_answer e with
      | inr true => (with_keeper Sleeping s, [])
      | inr false => mark_down s
      | inl x =>
          if is_Exception x then mark_down s
          else (with_keeper (Stopped x) s, [])
      end
  | Sleeping =>
      if sleep_cancelled e then (with_keeper (Stopped CancelledError) s, [])
      else (with_keeper LoopTop s, [])
  | Stopped _ => (s, [])
  end.

(** What the event loop does next: a request calls [ensure_connection],
    or a task that is ready runs to its next suspension. *)
Inductive action : Type :=
| Spawn
| StepCaller (i : nat) (e : env)
| StepKeeper (e : env).

Definition step (a : action) (s : state) : state * list event :=
  match a with
  | Spawn =>
      (mkState (client s) (connection_lock s) (last_connection_time s)
         (connection_status s) (callers s ++ [Waiting]) (keeper s), [])
  | StepCaller i e => ensure_connection i e s
  | StepKeeper e => connection_keeper e s
  end.

Fixpoint run (sched : list action) (s : state) : state * list event :=
  match sched with
  | [] => (s, [])
  | a :: sched' =>
      let '(s1, evs1) := step a s in
      let '(s2, evs2) := run sched' s1 in
      (s2, evs1 ++ evs2)
  end.

(** The module as loaded (lines 23-26), with the keeper task that
    [lifespan] creates in line 123. *)
Definition initial : state :=
  mkState None None None (mkStatus false None None) [] LoopTop.

Definition is_Connect (ev : event) : bool :=
  match ev with
  | Connect _ => true
  | _ => false
  end.

Definition count_connect (evs : list event) : nat :=
  length (filter (fun ev => is_Connect ev = true) evs).

Definition finished (pc : caller) : bool :=
  match pc with
  | Returned | Raised _ => true
  | _ => false
  end.

(** The task is inside [async with connection_lock]. *)
Definition inside (pc : caller) : bool :=
  match pc with
  | AwaitConnect | AwaitCheck | AwaitReconnect => true
  | _ => false
  end.

(** A client whose [connect()] succeeds and whose probe finds the
    session alive. *)
Definition healthy (a : action) : Prop :=
  match a with
  | Spawn => True
  | StepCaller _ e | StepKeeper e =>
      (exists reason, connect_answer e = inr (true, reason))
      /\ check_connect_answer e = inr true
  end.

(** The action is not a step of the [i]-th caller. *)
Definition not_by (i : nat) (a : action) : Prop :=
  match a with
  | StepCaller j _ => j <> i
  | _ => True
  end.

Definition not_keeper (a : action) : Prop :=
  match a with
  | StepKeeper _ => False
  | _ => True
  end.

(** The lock is held by the one caller that is inside [async with], and
    by nobody when no caller is. *)
Definition lock_inv (s : state) : Prop :=
  connection_lock s <> Some Keeper
  /\ forall i,
       (exists pc, callers s !! i = Some pc /\ inside pc = true)
       <-> connection_lock s = Some (Caller i).

(** With [lock_inv]: a caller that awaits its second [connect()] has
    marked the status down; a status that says connected has no error
    left; and no error is left while a caller is in the probe or in the
    second [connect()]. *)
Definition status_inv (s : state) : Prop :=
  (forall i, callers s !! i = Some AwaitReconnect ->
             connected (connection_status s) = false)
  /\ (connected (connection_status s) = true ->
      last_error (connection_status s) = None)
  /\ (forall i pc, callers s !! i = Some pc ->
        pc = AwaitCheck \/ pc = AwaitReconnect ->
        last_error (connection_status s) = None).

(** The three phases of a run against a healthy client: nobody has
    tried to connect; one caller is in the first [connect()]; the
    status says connected. *)
Definition phase0 (s : state) : Prop :=
  connected (connection_status s) = false
  /\ connection_lock s = None
  /\ Forall (fun pc => pc = Waiting) (callers s).

Definition phase1 (s : state) : Prop :=
  connected (connection_status s) = false
  /\ is_Some (client s)
  /\ exists i, connection_lock s = Some (Caller i)
       /\ callers s !! i = Some AwaitConnect
       /\ forall j pc, j <> i -> callers s !! j = Some pc -> pc = Waiting.

Definition phase2 (s : state) : Prop :=
  connected (connection_status s) = true
  /\ is_Some (client s)
  /\ Forall (fun pc => pc = Waiting \/ pc = AwaitCheck \/ pc = Returned)
       (callers s).

(** Where a run against a healthy client stands after [n] calls of
    [connect()]. *)
Definition phase (s : state) (n : nat) : Prop :=
  (phase0 s /\ n = 0%nat) \/ (phase1 s /\ n = 1%nat) \/ (phase2 s /\ n = 1%nat).

End WithRuntime.

Arguments state : clear implicits.
Arguments env : clear implicits.
Arguments action : clear implicits.

End Connection.

(** ** Concrete runs *)

Module Samples.
Import Progressive.

(** A rendering of exceptions for the concrete runs: Starlette prints
    an [HTTPException] as its status code and its detail; the other
    texts are those of CPython. *)
Definition sample_str (e : exc) : string :=
  match e with
  | HTTPException status_code detail => pretty status_code +:+ ": " +:+ detail
  | ZeroDivisionError => "integer modulo by zero"
  | TypeError => "unsupported operand type(s) for +: 'int' and 'NoneType'"
  | ClientError what => what
  | CancelledError => ""
  end.

(** The request of the usage note of lines 247-252. *)
Definition sample_request : CandleRequest :=
  mkCandleRequest "EURUSD_otc" 60 1 (Some 3600).

Definition zero_period_request : CandleRequest :=
  mkCandleRequest "EURUSD_otc" 0 1 (Some 3600).

Definition negative_days_request : CandleRequest :=
  mkCandleRequest "EURUSD_otc" 60 (-1) (Some 3600).

Definition negative_period_request : CandleRequest :=
  mkCandleRequest "EURUSD_otc" (-7) 1 (Some 3600).

Definition sample_timestamp : Z := 1700000007.

(** A client that gives one candle at the end time asked for. *)
Definition steady_client : client_get_candles Z :=
  fun _ c => inr (Some [mkCandle (call_end_time c) 11 12 13 10 100]).

(** A client whose call number [k] raises. *)
Definition failing_client (k : nat) : client_get_candles Z :=
  fun n c => if decide (n = k) then inl (ClientError "timeout") else steady_client n c.

(** The call of index 12 and the call of index 23 for the sample
    request at the sample timestamp. *)
Definition call_12 : call := mkCall "EURUSD_otc" 1700046780 3600 60 true.
Definition call_23 : call := mkCall "EURUSD_otc" 1700086380 3600 60 true.

Definition candle_a : Candle Z := mkCandle 60 11 12 13 10 100.
Definition candle_b : Candle Z := mkCandle 60 11 12 13 10 101.

(** Answers of the world: a client that is up; one that refuses the
    login; one whose session is lost but that can connect again. *)
Definition up : Connection.env Z :=
  Connection.mkEnv (inr (true, "Websocket connected successfully"))
    (inr true) "2024-01-01T00:00:00" 1704067200 false.

Definition refused : Connection.env Z :=
  Connection.mkEnv (inr (false, "Invalid credentials"))
    (inr true) "2024-01-01T00:00:00" 1704067200 false.

Definition lost : Connection.env Z :=
  Connection.mkEnv (inr (true, "Websocket connected successfully"))
    (inr false) "2024-01-01T00:00:30" 1704067230 false.

(** Two calls; the login of the first is refused, the second gets in. *)
Definition refused_then_up : list (Connection.action Z) :=
  [Connection.Spawn; Connection.Spawn;
   Connection.StepCaller 0 up; Connection.StepCaller 1 up;
   Connection.StepCaller 0 refused;
   Connection.StepCaller 1 up; Connection.StepCaller 1 up;
   Connection.StepCaller 1 up].

(** Two calls against a client that is up, and a round of the keeper. *)
Definition two_calls_up : list (Connection.action Z) :=
  [Connection.StepCaller 0 up; Connection.StepCaller 1 up;
   Connection.StepCaller 0 up; Connection.StepKeeper up;
   Connection.StepCaller 0 up; Connection.StepCaller 1 up;
   Connection.StepKeeper up; Connection.StepCaller 1 up].

(** A call connects; the keeper starts a probe; a second call finds the
    session lost and is in its second [connect()], inside the lock. *)
Definition probe_during_reconnect : list (Connection.action Z) :=
  [Connection.Spawn;
   Connection.StepCaller 0 up; Connection.StepCaller 0 up;
   Connection.StepCaller 0 up;
   Connection.StepKeeper up;
   Connection.Spawn;
   Connection.StepCaller 1 up; Connection.StepCaller 1 lost].

(** A call has connected, a second one stands in front of the lock. *)
Definition connected_and_waiting : list (Connection.action Z) :=
  [Connection.Spawn;
   Connection.StepCaller 0 up; Connection.StepCaller 0 up;
   Connection.StepCaller 0 up;
   Connection.Spawn].

(** A status that says connected and still holds an error text, with
    one call done and one in front of the free lock. The service does
    not get there (see [Runs.no_stale_error_while_connected]); the
    state serves to tell a reconnect that keeps [last_error] from one
    that clears it. *)
Definition stale_state : Connection.state Z :=
  Connection.mkState (Some Connection.QuotexClient) None (Some 1704067200)
    (Connection.mkStatus true (Some "Invalid credentials")
       (Some "2024-01-01T00:00:00"))
    [Connection.Returned; Connection.Waiting] Connection.LoopTop.

End Samples.

(** ** More of the service: definitions *)

Module ProgressiveMore.
Import Progressive.

Section WithRuntime.

Context {price : Type} `{!EqDecision price}.

(** What a retrieval call adds to [list_candles] (lines 278-279):
    nothing for an exception, for [None] and for an empty list. *)
Definition gathered (a : answer price) : list (Candle price) :=
  match a with
  | inr (Some candles) => candles
  | _ => []
  end.

(** The arguments of the call of index [j], when the first end time is
    [end0] and the offset [off]. *)
Definition nth_call (request : CandleRequest) (end0 off : Z) (j : nat) : call :=
  mkCall (asset request) (end0 + Z.of_nat j * off) off (period request) true.

(** The candles of the first [n] calls, in the order of arrival. *)
Definition arrivals (client : client_get_candles price) (request : CandleRequest)
    (end0 off : Z) (n : nat) : list (Candle price) :=
  mjoin ((fun j => gathered (client j (nth_call request end0 off j))) <$> seq 0 n).

End WithRuntime.

End ProgressiveMore.

Module ConnectionMore.
Import Connection.

Section WithRuntime.

Context {instant : Type}.

(** [str(e)], as in [Connection]. *)
Variable str : exc -> string.

(** Who an event is by. *)
Definition actor_of (ev : event) : actor :=
  match ev with
  | Connect a | CheckConnect a | SetItem a _ => a
  end.

Definition is_Connect_by (i : nat) (ev : event) : bool :=
  match ev with
  | Connect (Caller j) => Nat.eqb j i
  | _ => false
  end.

Definition is_CheckConnect_by (i : nat) (ev : event) : bool :=
  match ev with
  | CheckConnect (Caller j) => Nat.eqb j i
  | _ => false
  end.

(** How often the [i]-th call has called [client.connect()] and
    [client.check_connect()]. *)
Definition connects_by (i : nat) (evs : list event) : nat :=
  length (filter (fun ev => is_Connect_by i ev = true) evs).

Definition checks_by (i : nat) (evs : list event) : nat :=
  length (filter (fun ev => is_CheckConnect_by i ev = true) evs).

(** The calls of [connect()] and of the probe that a call can have
    made when it stands at [pc]. *)
Definition connect_budget (pc : caller) : nat :=
  match pc with
  | Waiting => 0
  | AwaitConnect | AwaitCheck => 1
  | _ => 2
  end.

Definition check_budget (pc : caller) : nat :=
  match pc with
  | Waiting | AwaitConnect => 0
  | _ => 1
  end.

(** The calls that a caller has made fit the place where it stands. *)
Definition within_budget (i : nat) (s : state instant) (c k : nat) : Prop :=
  match callers s !! i with
  | Some pc => (c <= connect_budget pc)%nat /\ (k <= check_budget pc)%nat
  | None => c = 0%nat /\ k = 0%nat
  end.

(** The steps that a call still needs at most. *)
Definition steps_left (pc : caller) : nat :=
  match pc with
  | Waiting => 4
  | AwaitConnect => 3
  | AwaitCheck => 2
  | AwaitReconnect => 1
  | _ => 0
  end.

(** What [await ensure_connection()] gives its caller, once the call
    has ended. *)
Definition outcome (pc : caller) : option (exc + unit) :=
  match pc with
  | Returned => Some (inr ())
  | Raised e => Some (inl e)
  | _ => None
  end.

(** A step in which the client raises [x]. *)
Definition raises_in (x : exc) (a : action instant) : Prop :=
  match a with
  | StepCaller _ e =>
      connect_answer e = inl x \/ check_connect_answer e = inl x
  | _ => False
  end.

(** The probe of the keeper finds the session alive. *)
Definition quiet_keeper (a : action instant) : Prop :=
  match a with
  | StepKeeper e => check_connect_answer e = inr true
  | _ => True
  end.

(** Nobody cancels the keeper. *)
Definition no_cancel (a : action instant) : Prop :=
  match a with
  | StepKeeper e =>
      sleep_cancelled e = false
      /\ forall x, check_connect_answer e = inl x -> is_Exception x = true
  | _ => True
  end.

(** No call of [ensure_connection] takes a step. *)
Definition no_caller (a : action instant) : Prop :=
  match a with
  | StepCaller _ _ => False
  | _ => True
  end.

(** The client answers the step with values, not with exceptions. *)
Definition answers_values (a : action instant) : Prop :=
  match a with
  | StepCaller _ e =>
      (exists r, connect_answer e = inr r)
      /\ (exists b, check_connect_answer e = inr b)
  | _ => True
  end.

(** With a keeper whose probes find the session alive: a call that is
    in its probe has seen or made the status connected, and a connected
    status, like a call that has taken the lock, comes with a client. *)
Definition probe_inv (s : state instant) : Prop :=
  (forall i, callers s !! i = Some AwaitCheck ->
             connected (connection_status s) = true)
  /\ (connected (connection_status s) = true -> is_Some (client s))
  /\ (forall i pc, callers s !! i = Some pc -> pc <> Waiting ->
        is_Some (client s)).

(** The clock readings that a step of a call stores when the
    [client.connect()] it awaited, the first (line 68) or the second
    (line 90), answers with success: those of lines 71 and 73, or 93
    and 94. [None] for any other step. *)
Definition connect_succeeds (a : action instant) (s : state instant)
    : option (string * instant) :=
  match a with
  | StepCaller i e =>
      match callers s !! i, connect_answer e with
      | Some AwaitConnect, inr (true, _)
      | Some AwaitReconnect, inr (true, _) =>
          Some (now_isoformat e, time_time e)
      | _, _ => None
      end
  | _ => None
  end.

(** The clock readings of the last successful connect in a run from
    [s]; [stamps] are those of the last one before the run. *)
Fixpoint last_success (sched : list (action instant)) (s : state instant)
    (stamps : option (string * instant)) : option (string * instant) :=
  match sched with
  | [] => stamps
  | a :: sched' =>
      last_success sched' (step str a s).1
        (match connect_succeeds a s with
         | Some now => Some now
         | None => stamps
         end)
  end.

(** The response model of lines 45-49. *)
Record ConnectionStatus : Type := mkConnectionStatus {
  status_connected : bool;
  status_last_error : option string;
  status_last_connected : option string;
  uptime_seconds : option instant
}.

(** The truth value of a float and the difference of two floats. *)
Variable truth : instant -> bool.
Variable minus : instant -> instant -> instant.

(** [GET /status], lines 166-178; [now] is [time.time()]. *)
Definition get_status (now : instant) (s : state instant) : ConnectionStatus :=
  let uptime :=
    match last_connection_time s with
    | Some t => if truth t then Some (minus now t) else None
    | None => None
    end in
  mkConnectionStatus
    (connected (connection_status s))
    (last_error (connection_status s))
    (last_connected (connection_status s))
    uptime.

End WithRuntime.

Arguments ConnectionStatus : clear implicits.

End ConnectionMore.

Module Endpoints.

Section WithRuntime.

(** What the client hands over and the service passes on as it is;
    floats for amounts, clock readings and prices. *)
Context {value amount instant price : Type}.

(** [str(e)], as in [Progressive], and the text of the [IndexError]
    of line 349. *)
Variable str : exc -> string.
Variable str_IndexError : string.

(** The clause [except Exception as e] that ends the endpoints (lines
    236-238 and the like): an [Exception] becomes an [HTTPException]
    of status 500 with its text as detail. *)
Definition internal_error {A : Type} (r : exc + A) : exc + A :=
  match r with
  | inl e => if is_Exception e then inl (HTTPException 500 (str e)) else inl e
  | inr a => inr a
  end.

(** [POST /connect], lines 180-184; [conn] is the outcome of
    [await ensure_connection()]. *)
Record ConnectResponse : Type := mkConnectResponse {
  connect_status : string;
  connect_message : string
}.

Definition connect (conn : exc + unit) : exc + ConnectResponse :=
  match conn with
  | inl e => inl e
  | inr _ =>
      inr (mkConnectResponse "connected" "Successfully connected to Quotex")
  end.

(** [GET /candles], lines 216-238. *)
Record CandlesResponse : Type := mkCandlesResponse {
  candles_asset : string;
  candles_period : Z;
  candles_count : Z;
  candles : option (list (Progressive.Candle price))
}.

Definition client_get_candles : Type :=
  string -> instant -> Z -> Z -> exc + option (list (Progressive.Candle price)).

Definition get_candles (conn : exc + unit) (time_time : instant)
    (client : client_get_candles) (asset : string) (period offset : Z)
    (end_time : option instant) : exc + CandlesResponse :=
  match conn with
  | inl e => inl e
  | inr _ =>
      internal_error
        (let end_time := default time_time end_time in
         match client asset end_time offset period with
         | inl e => inl e
         | inr candles =>
             inr (mkCandlesResponse asset period
                    (if Progressive.truthy candles
                     then Z.of_nat (length (default [] candles)) else 0)
                    candles)
         end)
  end.

(** [GET /assets/{asset}/status], lines 340-360. The client gives the
    name of the asset and its data, a sequence that may be [None]. *)
Inductive AssetStatus : Type :=
| AssetOpen (asset : string) (is_open : value) (data : list value)
| AssetNotFound (asset : string) (is_open : bool) (message : string).

Definition client_get_available_asset : Type :=
  string -> bool -> exc + (string * option (list value)).

Definition check_asset_status (conn : exc + unit)
    (client : client_get_available_asset) (asset : string)
    : exc + AssetStatus :=
  match conn with
  | inl e => inl e
  | inr _ =>
      match client asset false with
      | inl e => internal_error (inl e)
      | inr (asset_name, Some (x :: data)) =>
          match (x :: data) !! 2%nat with
          | Some is_open => inr (AssetOpen asset_name is_open (x :: data))
          | None => inl (HTTPException 500 str_IndexError)
          end
      | inr (_, _) => inr (AssetNotFound asset false "Asset not found")
      end
  end.

(** [POST /trade], lines 362-384. The [HTTPException] of line 381 is
    raised under the [try] of line 366. *)
Record TradeRequest : Type := mkTradeRequest {
  trade_amount : amount;
  trade_asset : string;
  direction : string;
  duration : Z
}.

Record TradeResponse : Type := mkTradeResponse {
  trade_status : string;
  trade_id : option value;
  details : gmap string value
}.

(** [client.buy]: whether the trade was placed, and a dict about it
    that is looked at only then. *)
Definition client_buy : Type :=
  amount -> string -> string -> Z -> exc + (bool * gmap string value).

Definition place_trade (conn : exc + unit) (buy : client_buy)
    (request : TradeRequest) : exc + TradeResponse :=
  match conn with
  | inl e => inl e
  | inr _ =>
      internal_error
        match buy (trade_amount request) (trade_asset request)
                (direction request) (duration request) with
        | inl e => inl e
        | inr (true, buy_info) =>
            inr (mkTradeResponse "success" (buy_info !! "id") buy_info)
        | inr (false, _) => inl (HTTPException 400 "Trade failed")
        end
  end.

(** [GET /payment/{asset}], lines 386-398. The [HTTPException] of line
    395 is raised under the [try] of line 390. *)
Definition get_payment_info (conn : exc + unit)
    (get_payment : exc + gmap string value) (asset : string) : exc + value :=
  match conn with
  | inl e => inl e
  | inr _ =>
      internal_error
        match get_payment with
        | inl e => inl e
        | inr payment_data =>
            match payment_data !! asset with
            | Some data => inr data
            | None =>
                inl (HTTPException 404 ("Asset " +:+ asset +:+ " not found"))
            end
        end
  end.

(** The two exception handlers, lines 417-430. *)
Record JSONResponse : Type := mkJSONResponse {
  status_code : Z;
  content_error : string;
  content_status_code : option Z;
  content_detail : option string
}.

Definition http_exception_handler (exc_status_code : Z) (exc_detail : string)
    : JSONResponse :=
  mkJSONResponse exc_status_code exc_detail (Some exc_status_code) None.

Definition general_exception_handler (e : exc) : JSONResponse :=
  mkJSONResponse 500 "Internal server error" None (Some (str e)).

(** The handler that the application has for an exception: the first
    for an [HTTPException], the second for any other [Exception], none
    for what is not an [Exception]. *)
Definition exception_response (e : exc) : option JSONResponse :=
  match e with
  | HTTPException status_code detail =>
      Some (http_exception_handler status_code detail)
  | CancelledError => None
  | _ => Some (general_exception_handler e)
  end.

(** What an endpoint raises is what [ensure_connection] raised, or an
    [HTTPException] of status 500, or no [Exception]. *)
Definition guarded {A : Type} (conn : exc + unit) (r : exc + A) : Prop :=
  forall x, r = inl x ->
    conn = inl x \/ (exists detail, x = HTTPException 500 detail)
    \/ is_Exception x = false.

(** The failure, if the exception has a handler, is answered with
    status 500 or 503. *)
Definition answers_500_or_503 {A : Type} (r : exc + A) : Prop :=
  forall x resp, r = inl x -> exception_response x = Some resp ->
    status_code resp = 500 \/ status_code resp = 503.

End WithRuntime.

Arguments ConnectResponse : clear implicits.
Arguments CandlesResponse : clear implicits.
Arguments client_get_candles : clear implicits.
Arguments AssetStatus : clear implicits.
Arguments client_get_available_asset : clear implicits.
Arguments TradeRequest : clear implicits.
Arguments TradeResponse : clear implicits.
Arguments client_buy : clear implicits.

End Endpoints.

Module Usage.
Import Progressive.

Section WithRuntime.

Context {price : Type}.

(** [a > b] on floats, and
    [datetime.fromtimestamp(t).strftime('%Y-%m-%d %H:%M:%S')], which
    raises for a time that the platform cannot tell. *)
Variable greater : price -> price -> bool.
Variable strftime : Z -> exc + string.

(** [l[-n:]] for a positive [n]: the last [n] items, all of them when
    there are fewer. *)
Definition last_items {A : Type} (n : nat) (l : list A) : list A :=
  drop (length l - n) l.

(** [candle['close'] > candle['open']] *)
Definition up (candle : Candle price) : bool :=
  greater (close candle) (open candle).

(** Line 63: [sum(1 if c['close'] > c['open'] else -1 for c in ...)]. *)
Definition recent_trend (latest_candles : list (Candle price)) : Z :=
  foldl Z.add 0 ((fun c => if up c then 1 else -1) <$> latest_candles).

(** Lines 65-70: the line that is printed last. *)
Inductive trend : Type := BULLISH | BEARISH | NEUTRAL.

Definition trend_of (recent_trend : Z) : trend :=
  if recent_trend >? 3 then BULLISH
  else if recent_trend <? -3 then BEARISH
  else NEUTRAL.

(** What lines 55-60 print for a candle: the time, the candle, the
    direction. *)
Record shown : Type := mkShown {
  time_str : string;
  shown_candle : Candle price;
  shown_up : bool
}.

(** Lines 54-60: the candles printed, and the exception that stopped
    the loop, if any. *)
Fixpoint show_candles (l : list (Candle price)) : list shown * option exc :=
  match l with
  | [] => ([], None)
  | candle :: l' =>
      match strftime (time candle) with
      | inl e => ([], Some e)
      | inr t =>
          let '(lines, stopped) := show_candles l' in
          (mkShown t candle (up candle) :: lines, stopped)
      end
  end.

(** What [analyze_candles] has printed when it ends: the number of
    candles (line 49), candles among the last three of the last ten
    (lines 54-60), and the trend (lines 65-70) unless an exception
    ended it before. *)
Record analysis : Type := mkAnalysis {
  total : nat;
  last_three : list shown;
  trend_line : exc + trend
}.

(** [analyze_candles] of [example_usage.py], lines 41-70: nothing is
    printed for [None] and for an empty list (line 45). *)
Definition analyze_candles (candles : option (list (Candle price)))
    : option analysis :=
  match candles with
  | None | Some [] => None
  | Some candles =>
      let latest_candles := last_items 10 candles in
      let '(lines, stopped) := show_candles (last_items 3 latest_candles) in
      Some (mkAnalysis (length candles) lines
              match stopped with
              | Some e => inl e
              | None => inr (trend_of (recent_trend latest_candles))
              end)
  end.

(** The candles that closed above their open. *)
Definition ups (l : list (Candle price)) : nat :=
  length (filter (fun c => up c = true) l).

End WithRuntime.

Arguments shown : clear implicits.
Arguments analysis : clear implicits.

End Usage.

Module MoreSamples.
Import Progressive Connection Samples.

(** A dict of the client about a placed trade, with and without the
    entry ["id"]. *)
Definition trade_info : gmap string Z := {[ "id" := 4711; "amount" := 10 ]}.
Definition trade_info_without_id : gmap string Z := {[ "amount" := 10 ]}.

Definition sample_trade : Endpoints.TradeRequest Z :=
  Endpoints.mkTradeRequest 10 "EURUSD_otc" "call" 60.

(** A client that places no trade. *)
Definition refusing_buy : Endpoints.client_buy Z Z :=
  fun _ _ _ _ => inr (false, ∅).

(** The outcome of the first call in [refused_then_up]. *)
Definition refused_outcome : exc + unit :=
  inl (HTTPException 503
         "Connection error: 503: Failed to connect: Invalid credentials").

(** The text of the [IndexError] of CPython for a tuple. *)
Definition str_IndexError : string := "tuple index out of range".

(** Ten candles, seven of which closed above their open, and an older
    one. *)
Definition rising : Candle Z := mkCandle 60 10 12 13 9 100.
Definition falling : Candle Z := mkCandle 60 12 10 13 9 100.

Definition ten_candles : list (Candle Z) :=
  [rising; rising; falling; rising; rising; falling; rising; rising;
   falling; rising].

(** The truth value and the difference of clock readings. *)
Definition sample_truth (t : Z) : bool := negb (t =? 0).

Definition sample_strftime (t : Z) : exc + string := inr (pretty t).

(** A call that stands in its first [connect()], and steps of the
    keeper alone. *)
Definition first_connect_pending : list (action Z) :=
  [Spawn; StepCaller 0 up].

Definition keeper_alone : list (action Z) :=
  [StepKeeper up; StepKeeper up; Spawn; StepKeeper up].

(** A call connects and the keeper finds the session gone; a second
    call connects half a minute later and finds the session gone
    again. *)
Definition reconnected_then_lost : list (action Z) :=
  [Spawn; StepCaller 0 up; StepCaller 0 up; StepCaller 0 up;
   StepKeeper up; StepKeeper lost;
   Spawn; StepCaller 1 lost; StepCaller 1 lost; StepCaller 1 lost].

(** A second call has found the status connected and is in its
    probe. *)
Definition second_call_probing : list (action Z) :=
  connected_and_waiting ++ [StepCaller 1 up].

End MoreSamples.

Module ProgressiveFacts.
Import Progressive.

Section Dict.

Context {K V : Type} `{!EqDecision K} (key : V -> K).

Lemma keyed_keys d : keyed key d -> d.*1 = key <$> d.*2.
Proof.
  induction 1 as [|[k v] d Hk _ IH]; [done|].
  rewrite !fmap_cons. simpl in *. by rewrite Hk, IH.
Qed.

Lemma dict_set_keyed x d : keyed key d -> keyed key (dict_set (key x) x d).
Proof.
  induction 1 as [|[k v] d Hk Hd IH]; simpl.
  - by repeat constructor.
  - case_decide; constructor; auto.
Qed.

Lemma dict_set_keys_elem (k : K) (v : V) (d : list (K * V)) k' :
  k' ∈ (dict_set k v d).*1 <-> k' = k \/ k' ∈ d.*1.
Proof.
  induction d as [|[k0 v0] d IH]; simpl.
  - rewrite list_elem_of_singleton, elem_of_nil. tauto.
  - case_decide; simpl; rewrite !elem_of_cons; [subst; tauto|].
    rewrite IH. tauto.
Qed.

Lemma dict_set_keys_NoDup (k : K) (v : V) (d : list (K * V)) :
  NoDup d.*1 -> NoDup (dict_set k v d).*1.
Proof.
  induction d as [|[k0 v0] d IH]; simpl; intros Hnd.
  - apply NoDup_singleton.
  - inversion_clear Hnd as [|? ? Hnotin Hnd'].
    case_decide as Hk; simpl.
    + subst. by constructor.
    + constructor; [|by apply IH].
      rewrite dict_set_keys_elem. intros [->|?]; [by apply Hk|by apply Hnotin].
Qed.

Lemma dict_set_values_elem `{!Inj (=) (=) key} x d c :
  keyed key d -> c ∈ (dict_set (key x) x d).*2 <-> c = x \/ c ∈ d.*2.
Proof.
  induction 1 as [|[k v] d Hk Hd IH]; simpl in *.
  - rewrite list_elem_of_singleton, elem_of_nil. tauto.
  - case_decide as Heq; simpl; rewrite !elem_of_cons.
    + assert (v = x) as -> by (apply (inj key); congruence). tauto.
    + rewrite IH. tauto.
Qed.

Lemma comprehension_spec `{!Inj (=) (=) key} l d :
  keyed key d -> NoDup d.*1 ->
  let d' := foldl (fun d x => dict_set (key x) x d) d l in
  keyed key d' /\ NoDup d'.*1 /\ forall c, c ∈ d'.*2 <-> c ∈ d.*2 \/ c ∈ l.
Proof.
  revert d. induction l as [|x l IH]; simpl; intros d Hk Hnd.
  - split_and!; [done|done|]. intros c. rewrite elem_of_nil. tauto.
  - destruct (IH (dict_set (key x) x d)) as (Hk' & Hnd' & Hin).
    { by apply dict_set_keyed. }
    { by apply dict_set_keys_NoDup. }
    split_and!; [done|done|].
    intros c. rewrite Hin, dict_set_values_elem, elem_of_cons by done. tauto.
Qed.

End Dict.

Section Facts.

Context {price : Type} `{!EqDecision price}.
Variable str : exc -> string.

#[local] Instance frozenset_items_inj : Inj (=) (=) (frozenset_items (price:=price)).
Proof. intros [] [] [=]. by subst. Qed.

Lemma unique_candles_spec (l : list (Candle price)) :
  NoDup (unique_candles l) /\ forall c, c ∈ unique_candles l <-> c ∈ l.
Proof.
  unfold unique_candles, dict_values, dict_comprehension.
  destruct (comprehension_spec frozenset_items l []) as (Hk & Hnd & Hin).
  { constructor. }
  { constructor. }
  split.
  - apply (NoDup_fmap_1 frozenset_items). by rewrite <- keyed_keys.
  - intros c. rewrite Hin. simpl. rewrite elem_of_nil. tauto.
Qed.

Lemma range_lt (size : Z) : Forall (fun i => i < size) (range size).
Proof.
  unfold range. apply Forall_fmap, Forall_forall.
  intros k Hk%elem_of_seq. simpl. lia.
Qed.

Lemma range_length (size : Z) : length (range size) = Z.to_nat size.
Proof. unfold range. by rewrite length_fmap, length_seq. Qed.

Section Loop.

Variables (client : client_get_candles price) (request : CandleRequest) (size : Z).

(** While the index stays below [size], the calls keep the offset and
    advance the end time by it. *)
Lemma loop_calls idxs n st j c :
  Forall (fun i => i < size) idxs ->
  (progressive_loop client request size idxs n st).1 !! j = Some c ->
  c = mkCall (asset request)
        (end_from_time st + Z.of_nat j * request_offset st)
        (request_offset st) (period request) true.
Proof.
  intros Hlt. revert n st j.
  induction Hlt as [|i idxs Hi _ IH]; intros n st j; simpl; [done|].
  destruct (client n _) as [e|candles]; simpl.
  - destruct j as [|j]; simpl; [|done].
    intros [= <-]. f_equal. lia.
  - replace (i >=? size) with false by lia.
    match goal with
    | |- context [progressive_loop _ _ _ idxs ?k ?s] =>
        specialize (IH k s);
        destruct (progressive_loop client request size idxs k s) as [calls r]
    end.
    destruct j as [|j]; simpl in *.
    + intros [= <-]. f_equal. lia.
    + intros Hj. rewrite (IH j Hj). f_equal. lia.
Qed.

Lemma loop_final_offset idxs n st st' :
  Forall (fun i => i < size) idxs ->
  (progressive_loop client request size idxs n st).2 = inr st' ->
  request_offset st' = request_offset st.
Proof.
  intros Hlt. revert n st.
  induction Hlt as [|i idxs Hi _ IH]; intros n st; simpl.
  - by intros [= <-].
  - destruct (client n _) as [e|candles]; simpl; [done|].
    replace (i >=? size) with false by lia.
    match goal with
    | |- context [progressive_loop _ _ _ idxs ?k ?s] =>
        specialize (IH k s);
        destruct (progressive_loop client request size idxs k s) as [calls r]
    end.
    simpl in *. intros Hr. by rewrite (IH Hr).
Qed.

(** When no call raises, the loop makes one call for each index. *)
Lemma loop_all_succeed idxs n st :
  (forall k c, exists candles, client k c = inr candles) ->
  length (progressive_loop client request size idxs n st).1 = length idxs
  /\ exists st', (progressive_loop client request size idxs n st).2 = inr st'.
Proof.
  intros Hok. revert n st.
  induction idxs as [|i idxs IH]; intros n st; simpl; [eauto|].
  destruct (Hok n (mkCall (asset request) (end_from_time st)
                     (request_offset st) (period request) true))
    as [candles ->].
  match goal with
  | |- context [progressive_loop _ _ _ idxs ?k ?s] =>
      destruct (IH k s) as [Hlen [st' Hst]];
      destruct (progressive_loop client request size idxs k s) as [calls r]
  end.
  simpl in *. split; [by rewrite Hlen|eauto].
Qed.

(** A call that raises is the last one, and its exception is what the
    loop ends with. *)
Lemma loop_failure idxs n st j c e :
  (progressive_loop client request size idxs n st).1 !! j = Some c ->
  client (n + j)%nat c = inl e ->
  (progressive_loop client request size idxs n st).2 = inl e
  /\ length (progressive_loop client request size idxs n st).1 = S j.
Proof.
  revert n st j.
  induction idxs as [|i idxs IH]; intros n st j; simpl; [done|].
  destruct (client n _) as [e0|candles] eqn:Hans; simpl.
  - destruct j as [|j]; simpl; [|done].
    intros [= <-]. rewrite Nat.add_0_r, Hans. by intros [= <-].
  - match goal with
    | |- context [progressive_loop _ _ _ idxs ?k ?s] =>
        specialize (IH k s);
        destruct (progressive_loop client request size idxs k s) as [calls r]
    end.
    destruct j as [|j]; simpl in *.
    + intros [= <-]. rewrite Nat.add_0_r, Hans. done.
    + intros Hj Hfail. replace (n + S j)%nat with (S n + j)%nat in Hfail by lia.
      destruct (IH j Hj Hfail) as [-> ->]. done.
Qed.

End Loop.

(** What the handler calls, read off its definition. *)
Lemma handler_calls conn timestamp (client : client_get_candles price) request :
  (get_candles_progressive str conn timestamp client request).1 =
  match conn, offset request with
  | inr _, Some off =>
      if period request =? 0 then []
      else (progressive_loop client request (days request * 24)
              (range (days request * 24)) 0%nat
              (mkLoop [] (timestamp - timestamp mod period request + off) off)).1
  | _, _ => []
  end.
Proof.
  unfold get_candles_progressive, progressive_try.
  destruct conn as [e|[]]; simpl.
  { by destruct (offset request). }
  destruct (period request =? 0); [by destruct (offset request)|].
  destruct (offset request) as [off|]; [|done].
  destruct (progressive_loop _ _ _ _ _ _) as [calls [e|st]]; simpl; [|done].
  by destruct (is_Exception e).
Qed.

Lemma handler_result timestamp (client : client_get_candles price) request off :
  period request <> 0 -> offset request = Some off ->
  (get_candles_progressive str (inr ()) timestamp client request).2 =
  match (progressive_loop client request (days request * 24)
           (range (days request * 24)) 0%nat
           (mkLoop [] (timestamp - timestamp mod period request + off) off)).2 with
  | inl e => inl (if is_Exception e then HTTPException 500 (str e) else e)
  | inr st =>
      inr (mkResponse (asset request) (period request) (days request)
             (Z.of_nat (length (unique_candles (list_candles st))))
             (unique_candles (list_candles st)))
  end.
Proof.
  intros Hp Hoff. unfold get_candles_progressive, progressive_try.
  rewrite Hoff. destruct (Z.eqb_spec (period request) 0) as [?|_]; [done|].
  destruct (progressive_loop _ _ _ _ _ _) as [calls [e|st]]; simpl; [|done].
  by destruct (is_Exception e).
Qed.

(** C2: every retrieval call of [get_candles_progressive] is passed the
    offset of the request, and the loop ends with its offset variable
    at that value: the branch of lines 280-281 that doubles it is never
    taken, since the index stays below [size]. *)
Theorem offset_never_doubles conn timestamp
    (client : client_get_candles price) request :
  (forall c,
     c ∈ (get_candles_progressive str conn timestamp client request).1 ->
     offset request = Some (call_offset c))
  /\ (forall off end0 st',
        (progressive_loop client request (days request * 24)
           (range (days request * 24)) 0%nat (mkLoop [] end0 off)).2 = inr st' ->
        request_offset st' = off).
Proof.
  split.
  - intros c [j Hj]%list_elem_of_lookup. rewrite handler_calls in Hj.
    destruct conn as [e|[]]; [done|].
    destruct (offset request) as [off|]; [|done].
    destruct (period request =? 0); [done|].
    by rewrite (loop_calls _ _ _ _ _ _ _ _ (range_lt _) Hj).
  - intros off end0 st' Hst.
    by rewrite (loop_final_offset _ _ _ _ _ _ _ (range_lt _) Hst).
Qed.



(** C5, amended: when the retrieval call of index [i] raises [e], the
    handler makes no further call and returns no response: it raises
    [HTTPException] with status 500 and detail [str(e)] (or [e] itself
    when [e] is not an [Exception]). *)
Theorem failure_aborts conn T (client : client_get_candles price) request
    (i : nat) c e :
  (get_candles_progressive str conn T client request).1 !! i = Some c ->
  client i c = inl e ->
  (get_candles_progressive str conn T client request).2 =
    inl (if is_Exception e then HTTPException 500 (str e) else e)
  /\ length (get_candles_progressive str conn T client request).1 = S i.
Proof.
  intros Hi Hfail. pose proof Hi as Hi'. rewrite handler_calls in Hi'.
  destruct conn as [e0|[]]; [done|].
  destruct (offset request) as [off|] eqn:Hoff; [|done].
  destruct (Z.eqb_spec (period request) 0) as [?|Hp]; [done|].
  destruct (loop_failure client request _ _ 0%nat _ i c e Hi' Hfail)
    as [Hres Hlen].
  split.
  - by rewrite (handler_result _ _ _ off), Hres.
  - by rewrite handler_calls, Hoff, (proj2 (Z.eqb_neq _ _) Hp).
Qed.

(** C4: line 288 takes the value of every field of a candle as its
    identity. Candles that agree on the six fields are one candle, and
    it stands once in the result; candles that differ in a field stand
    at two places of the result; the result has nothing but candles of
    the list. *)
Theorem dedup_full_equality (l : list (Candle price)) :
  (forall c1 c2 : Candle price,
     frozenset_items c1 = frozenset_items c2 <->
     time c1 = time c2 /\ open c1 = open c2 /\ close c1 = close c2 /\
     high c1 = high c2 /\ low c1 = low c2 /\ volume c1 = volume c2)
  /\ (forall c1 c2 : Candle price, c1 ∈ l -> c2 ∈ l ->
        frozenset_items c1 = frozenset_items c2 ->
        c1 = c2 /\ count_occ Candle_eq_dec (unique_candles l) c1 = 1%nat)
  /\ (forall c1 c2 : Candle price, c1 ∈ l -> c2 ∈ l ->
        frozenset_items c1 <> frozenset_items c2 ->
        exists i j, i <> j /\ unique_candles l !! i = Some c1
                    /\ unique_candles l !! j = Some c2)
  /\ (forall c, c ∈ l -> count_occ Candle_eq_dec (unique_candles l) c = 1%nat)
  /\ (forall c, c ∈ unique_candles l -> c ∈ l).
Proof.
  destruct (unique_candles_spec l) as [Hnd Hin].
  assert (forall c, c ∈ l -> count_occ Candle_eq_dec (unique_candles l) c = 1%nat)
    as Honce.
  { intros c Hc. apply NoDup_count_occ'; [by apply NoDup_ListNoDup|].
    by apply list_elem_of_In, Hin. }
  split_and!.
  - intros [] []. unfold frozenset_items. simpl. split.
    + by intros [= -> -> -> -> -> ->].
    + by intros (-> & -> & -> & -> & -> & ->).
  - intros c1 c2 H1 _ Hkey. split; [by apply (inj frozenset_items)|auto].
  - intros c1 c2 H1 H2 Hkey.
    apply Hin, list_elem_of_lookup in H1 as [i Hi].
    apply Hin, list_elem_of_lookup in H2 as [j Hj].
    exists i, j. split_and!; [|done|done].
    intros ->. rewrite Hi in Hj. congruence.
  - done.
  - intros c. apply Hin.
Qed.

End Facts.

End ProgressiveFacts.

Module ConnectionFacts.
Import Connection.

Section Facts.

Context {instant : Type}.
Variable str : exc -> string.

#[local] Abbreviation state := (state instant).
#[local] Abbreviation env := (env instant).
#[local] Abbreviation action := (action instant).
#[local] Abbreviation step := (step (instant:=instant) str).
#[local] Abbreviation run := (run (instant:=instant) str).

Lemma run_cons (a : action) sched (s : state) :
  run (a :: sched) s =
  ((run sched (step a s).1).1, (step a s).2 ++ (run sched (step a s).1).2).
Proof.
  simpl. destruct (step a s) as [s1 evs1]. simpl.
  by destruct (run sched s1).
Qed.

Lemma run_app sched1 sched2 (s : state) :
  run (sched1 ++ sched2) s =
  ((run sched2 (run sched1 s).1).1,
   (run sched1 s).2 ++ (run sched2 (run sched1 s).1).2).
Proof.
  revert s. induction sched1 as [|a sched1 IH]; intros s.
  - simpl. by destruct (run sched2 s).
  - rewrite <- app_comm_cons, !run_cons, IH. simpl. by rewrite app_assoc.
Qed.

(** A property of the initial state that every step keeps holds after
    every schedule. *)
Lemma run_invariant (P : state -> Prop) (s : state) :
  P s -> (forall a s, P s -> P (step a s).1) ->
  forall sched, P (run sched s).1.
Proof.
  intros Hs Hstep sched. revert s Hs.
  induction sched as [|a sched IH]; intros s Hs; [done|].
  rewrite run_cons. simpl. by apply IH, Hstep.
Qed.

Ltac open_step :=
  unfold Connection.step, ensure_connection, connection_keeper, enter,
    after_connect, after_check, after_reconnect, mark_down, leave.

Ltac step_cases :=
  open_step; repeat case_match; simplify_eq/=.

Lemma step_last_connected (a : action) (s : state) :
  (is_Some (last_connected (connection_status s)) ->
   is_Some (last_connected (connection_status (step a s).1)))
  /\ (connected (connection_status (step a s).1) = true ->
      connected (connection_status s) = true
      \/ is_Some (last_connected (connection_status (step a s).1))).
Proof.
  destruct a as [|i e|e]; step_cases; naive_solver.
Qed.

(** The keeper leaves the lock, the callers, the client and all of the
    status but [connected] as they are, and never sets [connected]. *)
Lemma keeper_frame (e : env) (s : state) :
  let s' := (connection_keeper e s).1 in
  connection_lock s' = connection_lock s
  /\ callers s' = callers s
  /\ client s' = client s
  /\ last_error (connection_status s') = last_error (connection_status s)
  /\ last_connected (connection_status s') = last_connected (connection_status s)
  /\ (connected (connection_status s') = true ->
      connection_status s' = connection_status s).
Proof. step_cases; naive_solver. Qed.

(** How a step of a caller moves the lock and the callers: not at all;
    or the caller enters; or it is inside and stays, or leaves. *)
Lemma caller_shape i (e : env) (s : state) :
  let s' := (ensure_connection str i e s).1 in
  (s' = s /\ (ensure_connection str i e s).2 = [])
  \/ (callers s !! i = Some Waiting /\ connection_lock s = None
      /\ connection_lock s' = Some (Caller i)
      /\ connection_status s' = connection_status s
      /\ exists pc', inside pc' = true /\ callers s' = <[i:=pc']> (callers s))
  \/ (exists pc pc', callers s !! i = Some pc /\ inside pc = true
        /\ callers s' = <[i:=pc']> (callers s)
        /\ (inside pc' = true /\ connection_lock s' = connection_lock s
            \/ finished pc' = true /\ connection_lock s' = None)).
Proof.
  step_cases;
    first [ by left
          | right; left; split_and!; [done..|];
            eexists; split; [|reflexivity]; done
          | right; right; naive_solver ].
Qed.

Lemma lock_inv_step (a : action) (s : state) :
  lock_inv s -> lock_inv (step a s).1.
Proof.
  intros [Hk Hinv]. destruct a as [|i e|e].
  - split; [done|]. simpl. intros i. rewrite <- Hinv. split.
    + intros (pc & [[_ Hpc]|[_ <-]]%lookup_snoc_Some & Hin); [eauto|done].
    + intros (pc & Hpc & Hin). exists pc. split; [|done].
      by apply lookup_app_l_Some.
  - simpl.
    destruct (caller_shape i e s)
      as [[Heq _]|[(Hw & Hfree & Hl' & _ & pc' & Hin' & Hc')
                  |(pc & pc' & Hpc & Hin & Hc' & Hlock)]];
      unfold lock_inv.
    + rewrite Heq. done.
    + rewrite Hl', Hc'. split; [done|]. intros j. rewrite list_lookup_insert.
      pose proof (lookup_lt_Some _ _ _ Hw). case_decide as Hij.
      * destruct Hij as [-> _]. naive_solver.
      * split; [|naive_solver lia].
        intros Hj%Hinv. congruence.
    + pose proof (lookup_lt_Some _ _ _ Hpc) as Hlt.
      assert (connection_lock s = Some (Caller i)) as Hheld
        by (apply Hinv; eauto).
      rewrite Hc'. destruct Hlock as [[Hin' ->]|[Hfin ->]].
      * split; [done|]. intros j. rewrite list_lookup_insert, Hheld.
        case_decide as Hij; [naive_solver|].
        rewrite Hinv, Hheld. naive_solver lia.
      * split; [done|]. intros j. rewrite list_lookup_insert.
        case_decide as Hij.
        -- destruct pc'; naive_solver.
        -- rewrite Hinv, Hheld. naive_solver lia.
  - simpl. destruct (keeper_frame e s) as (Hl & Hc & _).
    unfold lock_inv. by rewrite Hl, Hc.
Qed.

Lemma inside_locked (s : state) i pc :
  lock_inv s -> callers s !! i = Some pc -> inside pc = true ->
  connection_lock s = Some (Caller i).
Proof. intros [_ Hinv] Hpc Hin. apply Hinv. eauto. Qed.

Lemma inside_unique (s : state) i j pc pc' :
  lock_inv s ->
  callers s !! i = Some pc -> inside pc = true ->
  callers s !! j = Some pc' -> inside pc' = true ->
  i = j.
Proof.
  intros Hinv Hi Hini Hj Hinj.
  pose proof (inside_locked _ _ _ Hinv Hi Hini).
  pose proof (inside_locked _ _ _ Hinv Hj Hinj).
  congruence.
Qed.

Ltac not_both Hinv Hi Hj Hne :=
  first
    [ exfalso; apply Hne; symmetry;
      exact (inside_unique _ _ _ _ _ Hinv Hj eq_refl Hi eq_refl)
    | pose proof (inside_locked _ _ _ Hinv Hj eq_refl); congruence ].

Lemma status_inv_step (a : action) (s : state) :
  lock_inv s -> status_inv s -> status_inv (step a s).1.
Proof.
  intros Hinv (HA & HB & HC). destruct a as [|i e|e].
  - simpl. split_and!; [|done|].
    + intros i [[_ Hi]|[_ ?]]%lookup_snoc_Some; [eauto|done].
    + intros i pc [[_ Hi]|[_ <-]]%lookup_snoc_Some; [eauto|by intros [|]].
  - simpl. step_cases; try done;
      try match goal with Hi : callers s !! i = Some _ |- _ =>
        unfold status_inv; simpl; split_and!;
        [ intros j [(-> & ? & _)|[Hne Hj]]%list_lookup_insert_Some;
          [done || congruence | not_both Hinv Hi Hj Hne]
        | first [ done | by intros; apply HB | by intros; eapply HC; eauto
                | by intros; congruence
                | by intros Hx; rewrite (HA _ Hi) in Hx ]
        | intros j pc [(-> & <- & _)|[Hne Hj]]%list_lookup_insert_Some Hpc;
          [ first [ done | by destruct Hpc | by apply HB | by eapply HC; eauto ]
          | destruct Hpc as [-> | ->]; not_both Hinv Hi Hj Hne ] ]
      end.
  - simpl. destruct (keeper_frame e s) as (_ & Hc & _ & He & _ & Hcon).
    unfold status_inv. rewrite Hc, He. split_and!; [| |done].
    + intros i Hi. specialize (HA i Hi).
      destruct (connected (connection_status (connection_keeper e s).1)) eqn:Hx; [|done].
      rewrite (Hcon eq_refl) in Hx. congruence.
    + intros Hx. apply HB. by rewrite <- (Hcon Hx).
Qed.

Lemma lock_inv_initial : lock_inv (initial (instant:=instant)).
Proof.
  split; [done|]. intros i. simpl. rewrite lookup_nil. naive_solver.
Qed.

Lemma invariants_run sched :
  lock_inv (run sched initial).1 /\ status_inv (run sched initial).1.
Proof.
  apply (run_invariant (fun s => lock_inv s /\ status_inv s)).
  - split; [apply lock_inv_initial|].
    split_and!; [|done|]; intros i; simpl; by rewrite lookup_nil.
  - intros a s [Hl Hs]. split; [by apply lock_inv_step|by apply status_inv_step].
Qed.

(** C9: in every state that calls of [ensure_connection] and steps of
    the keeper reach from the initial state, a status that says
    connected has [last_connected] set; a step that turns [connected]
    to true leaves [last_connected] set, and no step unsets it. *)
Theorem connected_has_timestamp sched :
  let s := (run sched initial).1 in
  (connected (connection_status s) = true ->
   is_Some (last_connected (connection_status s)))
  /\ (forall (a : action) (s0 : state),
        connected (connection_status s0) = false ->
        connected (connection_status (step a s0).1) = true ->
        is_Some (last_connected (connection_status (step a s0).1)))
  /\ (forall (a : action) (s0 : state),
        is_Some (last_connected (connection_status s0)) ->
        is_Some (last_connected (connection_status (step a s0).1))).
Proof.
  split_and!.
  - apply (run_invariant (fun s =>
      connected (connection_status s) = true ->
      is_Some (last_connected (connection_status s)))); [done|].
    intros a s Hs Hc.
    destruct (step_last_connected a s) as [Hkeep [Hold|Hnew]]; auto.
  - intros a s0 Hoff Hon.
    destruct (step_last_connected a s0) as [_ [Hold|Hnew]]; [done| |done].
    congruence.
  - intros a s0. apply step_last_connected.
Qed.

Lemma others_keep_keeper others (s : state) :
  Forall not_keeper others -> keeper (run others s).1 = keeper s.
Proof.
  intros Hothers. revert s.
  induction Hothers as [|a others Ha _ IH]; intros s; [done|].
  rewrite run_cons. simpl. rewrite IH.
  destruct a as [|i e|e]; [done| |done].
  step_cases; done.
Qed.

(** C7: a round of the keeper that finds the status connected asks the
    probe; whatever other tasks do meanwhile, when the probe answers
    false or raises an [Exception], the keeper sets [connected] to
    false and does nothing else: no [connect()], no caller touched, the
    task goes to sleep and then to the next round. *)
Theorem keeper_marks_down (s : state) (e0 e : env) others :
  keeper s = LoopTop ->
  connected (connection_status s) = true ->
  is_Some (client s) ->
  Forall not_keeper others ->
  check_connect_answer e = inr false
  \/ (exists x, check_connect_answer e = inl x /\ is_Exception x = true) ->
  let probe := connection_keeper e0 s in
  let s1 := (run others probe.1).1 in
  let down := connection_keeper e s1 in
  probe.2 = [CheckConnect Keeper]
  /\ down.2 = [SetItem Keeper "connected"]
  /\ count_connect (probe.2 ++ down.2) = 0%nat
  /\ connected (connection_status down.1) = false
  /\ callers down.1 = callers s1
  /\ keeper down.1 = Sleeping
  /\ forall e', sleep_cancelled e' = false ->
       keeper (connection_keeper e' down.1).1 = LoopTop
       /\ (connection_keeper e' down.1).2 = [].
Proof.
  intros Htop Hon [c Hc] Hothers Hbad probe s1 down.
  assert (probe = (with_keeper AwaitProbe s, [CheckConnect Keeper])) as Hprobe.
  { unfold probe, connection_keeper. by rewrite Htop, Hon, Hc. }
  assert (keeper s1 = AwaitProbe) as Hk.
  { unfold s1. rewrite others_keep_keeper by done. by rewrite Hprobe. }
  assert (down = mark_down s1) as ->.
  { unfold down, connection_keeper. rewrite Hk.
    destruct Hbad as [->|(x & -> & ->)]; done. }
  split_and!; try done; [by rewrite Hprobe|by rewrite Hprobe|].
  intros e' He'. unfold connection_keeper. simpl. by rewrite He'.
Qed.

(** Who writes the status in a step, and from where. *)
Lemma caller_writes i (e : env) (s : state) a key :
  SetItem a key ∈ (ensure_connection str i e s).2 ->
  a = Caller i /\ exists pc, callers s !! i = Some pc /\ inside pc = true.
Proof.
  step_cases; rewrite ?elem_of_cons, ?elem_of_nil; naive_solver.
Qed.

Lemma keeper_writes (e : env) (s : state) a key :
  SetItem a key ∈ (connection_keeper e s).2 ->
  a = Keeper /\ key = "connected"%string.
Proof.
  step_cases; rewrite ?elem_of_cons, ?elem_of_nil; naive_solver.
Qed.

(** C8, amended: in every reachable state, a caller that assigns to
    [connection_status] holds [connection_lock], and at most one caller
    is inside the lock; the keeper assigns to the key [connected]
    without the lock, which it never takes nor frees. *)
Theorem callers_write_under_lock sched :
  let s := (run sched initial).1 in
  (forall (a : action) who key,
     SetItem who key ∈ (step a s).2 ->
     (exists i, who = Caller i /\ connection_lock s = Some (Caller i))
     \/ (who = Keeper /\ key = "connected"%string
         /\ connection_lock s <> Some Keeper))
  /\ (forall i j pc pc',
        callers s !! i = Some pc -> inside pc = true ->
        callers s !! j = Some pc' -> inside pc' = true -> i = j)
  /\ (forall e : env,
        connection_lock (connection_keeper e s).1 = connection_lock s).
Proof.
  intros s. destruct (invariants_run sched) as [Hinv _]. fold s in Hinv.
  split_and!.
  - intros [|i e|e] who key; simpl.
    + by intros ?%elem_of_nil.
    + intros (-> & pc & Hpc & Hin)%caller_writes. left. exists i.
      split; [done|]. by eapply inside_locked.
    + intros [-> ->]%keeper_writes. right. split_and!; [done..|].
      apply Hinv.
  - intros i j pc pc'. by apply inside_unique.
  - intros e. apply keeper_frame.
Qed.

Lemma count_connect_app (evs1 evs2 : list event) :
  count_connect (evs1 ++ evs2) = (count_connect evs1 + count_connect evs2)%nat.
Proof. unfold count_connect. by rewrite filter_app, length_app. Qed.

(** Against a healthy client the keeper writes nothing, as long as a
    connected status comes with a client. *)
Lemma keeper_healthy (e : env) (s : state) :
  healthy (StepKeeper e) ->
  (connected (connection_status s) = true -> is_Some (client s)) ->
  let r := connection_keeper e s in
  connection_status r.1 = connection_status s
  /\ client r.1 = client s
  /\ connection_lock r.1 = connection_lock s
  /\ callers r.1 = callers s
  /\ count_connect r.2 = 0%nat.
Proof.
  intros [_ Hcheck] Hclient. simpl in Hcheck.
  step_cases; try done.
  by destruct Hclient.
Qed.

Lemma phase0_step (a : action) (s : state) :
  healthy a -> phase0 s ->
  let r := step a s in
  (phase0 r.1 /\ count_connect r.2 = 0%nat)
  \/ (phase1 r.1 /\ count_connect r.2 = 1%nat).
Proof.
  intros Ha (Hoff & Hfree & Hall). destruct a as [|i e|e]; simpl.
  - left. split; [|done]. split_and!; [done..|].
    simpl. apply Forall_app. split; [done|by constructor].
  - unfold ensure_connection.
    destruct (callers s !! i) as [pc|] eqn:Hi; [|by left].
    rewrite (Forall_lookup_1 _ _ _ _ Hall Hi), Hfree.
    unfold enter. rewrite Hoff. simpl. right. split; [|done].
    split_and!; [done|by eexists|]. exists i. split_and!; [done| |].
    + simpl. apply list_lookup_insert_eq. by eapply lookup_lt_Some.
    + simpl. intros j pc' Hne. rewrite list_lookup_insert_ne by done.
      by apply (Forall_lookup_1 _ _ _ _ Hall).
  - destruct (keeper_healthy e s Ha) as (Hst & _ & Hl & Hc & Hn); [congruence|].
    left. split; [|done]. unfold phase0. by rewrite Hst, Hl, Hc.
Qed.

Lemma phase1_step (a : action) (s : state) :
  healthy a -> phase1 s ->
  let r := step a s in
  (phase1 r.1 \/ phase2 r.1) /\ count_connect r.2 = 0%nat.
Proof.
  intros Ha (Hoff & Hcl & i & Hheld & Hi & Hothers).
  destruct a as [|j e|e]; simpl.
  - split; [|done]. left. split_and!; [done..|]. exists i.
    split_and!; [done|by apply lookup_app_l_Some|].
    simpl. intros j pc Hne [[_ Hj]|[_ <-]]%lookup_snoc_Some; eauto.
  - unfold ensure_connection. destruct (decide (j = i)) as [->|Hne].
    + rewrite Hi. unfold after_connect.
      destruct Ha as [[reason ->] _]. simpl. split; [|done]. right.
      split_and!; [done..|]. simpl. apply Forall_lookup.
      intros k pc [(-> & <- & _)|[Hk Hpc]]%list_lookup_insert_Some; [auto|].
      left. by eapply Hothers.
    + destruct (callers s !! j) as [pc|] eqn:Hj; [|split; [by left; repeat split; eauto|done]].
      rewrite (Hothers j pc Hne Hj), Hheld.
      split; [by left; repeat split; eauto|done].
  - destruct (keeper_healthy e s Ha) as (Hst & Hc' & Hl & Hc & Hn); [congruence|].
    split; [|done]. left. unfold phase1. rewrite Hst, Hl, Hc, Hc'.
    split_and!; eauto.
Qed.

Lemma phase2_step (a : action) (s : state) :
  healthy a -> phase2 s ->
  let r := step a s in
  phase2 r.1 /\ count_connect r.2 = 0%nat.
Proof.
  intros Ha (Hon & Hcl & Hall). destruct a as [|j e|e]; simpl.
  - split; [|done]. split_and!; [done..|]. simpl.
    apply Forall_app. split; [done|]. constructor; auto.
  - unfold ensure_connection.
    destruct (callers s !! j) as [pc|] eqn:Hj; [|done].
    destruct (Forall_lookup_1 _ _ _ _ Hall Hj) as [->|[->| ->]]; [| |done].
    + destruct (connection_lock s); [done|].
      unfold enter. rewrite Hon. simpl. split; [|done].
      split_and!; [done|by eexists|]. simpl. apply Forall_insert; auto.
    + unfold after_check. destruct Ha as [_ ->]. simpl. split; [|done].
      split_and!; [done..|]. simpl. apply Forall_insert; auto.
  - destruct (keeper_healthy e s Ha) as (Hst & Hc' & Hl & Hc & Hn); [done|].
    split; [|done]. unfold phase2. by rewrite Hst, Hc, Hc'.
Qed.

Lemma phase_run sched (s : state) n :
  Forall healthy sched -> phase s n ->
  phase (run sched s).1 (n + count_connect (run sched s).2).
Proof.
  intros Hsched. revert s n.
  induction Hsched as [|a sched Ha _ IH]; intros s n Hs.
  - simpl. by rewrite Nat.add_0_r.
  - rewrite run_cons. simpl. rewrite count_connect_app, Nat.add_assoc.
    apply IH. destruct Hs as [[H0 ->]|[[H1 ->]|[H2 ->]]].
    + destruct (phase0_step a s Ha H0) as [[? ->]|[? ->]]; [by left|].
      right. by left.
    + destruct (phase1_step a s Ha H1) as [[?|?] ->]; [right; by left|].
      right. by right.
    + destruct (phase2_step a s Ha H2) as [? ->]. right. by right.
Qed.

(** Calls are never forgotten. *)
Lemma callers_length_step (a : action) (s : state) :
  (length (callers s) <= length (callers (step a s).1))%nat.
Proof.
  destruct a as [|i e|e]; simpl.
  - rewrite length_app. lia.
  - destruct (caller_shape i e s)
      as [[-> _]|[(_ & _ & _ & _ & pc' & _ & ->)|(pc & pc' & _ & _ & -> & _)]];
      rewrite ?length_insert; lia.
  - destruct (keeper_frame e s) as (_ & -> & _). lia.
Qed.

Lemma callers_length_run sched (s : state) :
  (length (callers s) <= length (callers (run sched s).1))%nat.
Proof.
  revert s. induction sched as [|a sched IH]; intros s; [done|].
  rewrite run_cons. simpl.
  etrans; [apply (callers_length_step a)|apply IH].
Qed.

Lemma spawn_length N (s : state) :
  length (callers (run (replicate N Spawn) s).1) = (length (callers s) + N)%nat.
Proof.
  revert s. induction N as [|N IH]; intros s; simpl replicate.
  - simpl. lia.
  - rewrite run_cons. cbn [fst]. rewrite IH. simpl. rewrite length_app. simpl. lia.
Qed.


(** While caller [i] holds the lock, the steps of the others leave the
    lock, the place of [i] and [last_error] as they are. *)
Lemma others_frame i (a : action) (s : state) :
  lock_inv s -> connection_lock s = Some (Caller i) -> not_by i a ->
  let s' := (step a s).1 in
  connection_lock s' = Some (Caller i)
  /\ callers s' !! i = callers s !! i
  /\ last_error (connection_status s') = last_error (connection_status s).
Proof.
  intros Hinv Hheld Ha.
  destruct (proj2 (proj2 Hinv i) Hheld) as (pc & Hpc & Hin).
  destruct a as [|j e|e]; simpl.
  - split_and!; [done| |done]. simpl. rewrite Hpc. by apply lookup_app_l_Some.
  - simpl in Ha.
    destruct (caller_shape j e s)
      as [[-> _]|[(_ & Hfree & _)|(pc1 & pc' & Hj & Hinj & _)]]; [done|congruence|].
    destruct Ha. by apply (inside_unique s j i pc1 pc).
  - destruct (keeper_frame e s) as (-> & -> & _ & -> & _). done.
Qed.

Lemma others_frame_run i others (s : state) :
  lock_inv s -> connection_lock s = Some (Caller i) ->
  Forall (not_by i) others ->
  let s' := (run others s).1 in
  lock_inv s'
  /\ connection_lock s' = Some (Caller i)
  /\ callers s' !! i = callers s !! i
  /\ last_error (connection_status s') = last_error (connection_status s).
Proof.
  intros Hinv Hheld Hothers. revert s Hinv Hheld.
  induction Hothers as [|a others Ha _ IH]; intros s Hinv Hheld; [done|].
  rewrite run_cons. cbn [fst].
  destruct (others_frame i a s Hinv Hheld Ha) as (Hl & Hc & He).
  destruct (IH (step a s).1) as (? & ? & -> & ->); [by apply lock_inv_step|done|].
  done.
Qed.

(** C10, amended: from any state in which the lock is as the calls
    stand, a call of [ensure_connection] that finds the status
    connected, is told by the probe that the session is gone and
    reconnects with success, returns with [last_error] as it was when
    the call took the lock, whatever that value is and whatever the
    keeper and the other calls do meanwhile. In any state, the one step
    that clears an error text is the answer of the first [connect()]
    with success. And in a state reached from the initial one a status
    that says connected has no error text, so that the reconnect finds
    and leaves [None]. *)
Theorem reconnect_keeps_last_error (s : state) i (e1 e2 e3 : env)
    others1 others2 reason :
  lock_inv s ->
  callers s !! i = Some Waiting ->
  connection_lock s = None ->
  connected (connection_status s) = true ->
  Forall (not_by i) others1 ->
  Forall (not_by i) others2 ->
  check_connect_answer e2 = inr false ->
  connect_answer e3 = inr (true, reason) ->
  let s' :=
    (run ([StepCaller i e1] ++ others1 ++ [StepCaller i e2] ++ others2
          ++ [StepCaller i e3]) s).1 in
  callers s' !! i = Some Returned
  /\ connected (connection_status s') = true
  /\ last_error (connection_status s') = last_error (connection_status s)
  /\ (forall (a : action) (s0 : state) msg,
        last_error (connection_status s0) = Some msg ->
        last_error (connection_status (step a s0).1) = None ->
        exists j e r,
          a = StepCaller j e
          /\ callers s0 !! j = Some AwaitConnect
          /\ connect_answer e = inr (true, r))
  /\ (forall sched,
        connected (connection_status (run sched initial).1) = true ->
        last_error (connection_status (run sched initial).1) = None).
Proof.
  intros Hinv Hw Hfree Hon Hothers1 Hothers2 Hcheck Hconn s'.
  pose proof (lookup_lt_Some _ _ _ Hw) as Hlt.
  (* the call takes the lock and asks the probe *)
  set (s1 := (step (StepCaller i e1) s).1).
  assert (s1 = with_caller i AwaitCheck
                 (with_client (Some (default QuotexClient (client s)))
                    (with_lock (Some (Caller i)) s))) as Hs1.
  { unfold s1. simpl. unfold ensure_connection, enter. by rewrite Hw, Hfree, Hon. }
  assert (lock_inv s1) as Hinv1 by (by apply lock_inv_step).
  (* the others run *)
  destruct (others_frame_run i others1 s1 Hinv1) as (Hinv2 & Hl2 & Hc2 & He2);
    [by rewrite Hs1|done|].
  set (s2 := (run others1 s1).1) in *.
  assert (callers s2 !! i = Some AwaitCheck) as Hi2.
  { rewrite Hc2, Hs1. simpl. by apply list_lookup_insert_eq. }
  (* the probe says no: the call marks the status down and reconnects *)
  set (s3 := (step (StepCaller i e2) s2).1).
  assert (s3 = with_caller i AwaitReconnect
                 (with_status (set_connected false (connection_status s2)) s2))
    as Hs3.
  { unfold s3. simpl. unfold ensure_connection, after_check. by rewrite Hi2, Hcheck. }
  assert (lock_inv s3) as Hinv3 by (by apply lock_inv_step).
  destruct (others_frame_run i others2 s3 Hinv3) as (Hinv4 & Hl4 & Hc4 & He4);
    [by rewrite Hs3|done|].
  set (s4 := (run others2 s3).1) in *.
  assert (callers s4 !! i = Some AwaitReconnect) as Hi4.
  { rewrite Hc4, Hs3. simpl. apply list_lookup_insert_eq.
    by eapply lookup_lt_Some. }
  (* the second connect succeeds *)
  assert (s' = (step (StepCaller i e3) s4).1) as ->.
  { unfold s', s4, s3, s2, s1. by rewrite !run_app, !run_cons. }
  split_and!.
  - simpl. unfold ensure_connection, after_reconnect. rewrite Hi4, Hconn. simpl.
    apply list_lookup_insert_eq. by eapply lookup_lt_Some.
  - simpl. unfold ensure_connection, after_reconnect. by rewrite Hi4, Hconn.
  - simpl. unfold ensure_connection, after_reconnect. rewrite Hi4, Hconn. simpl.
    rewrite He4, Hs3. simpl. rewrite He2, Hs1. done.
  - intros a s0 msg Hmsg Hnone. clear -Hmsg Hnone.
    destruct a as [|j e|e]; simpl in Hnone; [congruence| |].
    + unfold ensure_connection in Hnone.
      destruct (callers s0 !! j) as [[| | | | |x]|] eqn:Hj;
        try (simpl in Hnone; congruence).
      * destruct (connection_lock s0); [simpl in Hnone; congruence|].
        unfold enter in Hnone.
        destruct (connected (connection_status s0)); simpl in Hnone;
          congruence.
      * unfold after_connect in Hnone.
        destruct (connect_answer e) as [x|[[] r]] eqn:He;
          [|by eauto 7|simpl in Hnone; congruence].
        destruct (is_Exception x); simpl in Hnone; congruence.
      * unfold after_check in Hnone.
        destruct (check_connect_answer e) as [x|[]]; simpl in Hnone;
          congruence.
      * unfold after_reconnect in Hnone.
        destruct (connect_answer e) as [x|[[] r]]; simpl in Hnone;
          congruence.
    + unfold connection_keeper, mark_down in Hnone.
      repeat case_match; simpl in Hnone; congruence.
  - intros sched. destruct (invariants_run sched) as [_ (_ & HB & _)].
    exact HB.
Qed.

End Facts.

End ConnectionFacts.

(** ** The theorems at concrete runs *)

Module Runs.
Import Progressive Connection Samples ProgressiveFacts ConnectionFacts.



#[local] Abbreviation sample_run :=
  (get_candles_progressive sample_str (inr ()) sample_timestamp
     steady_client sample_request).

#[local] Abbreviation zero_period_run :=
  (get_candles_progressive sample_str (inr ()) sample_timestamp
     steady_client zero_period_request).

#[local] Abbreviation failed_run k :=
  (get_candles_progressive sample_str (inr ()) sample_timestamp
     (failing_client k) sample_request).

Lemma offset_never_doubles_witness :
  call_23 ∈ sample_run.1
  /\ offset sample_request = Some (call_offset call_23).
Proof.
  assert (call_23 ∈ sample_run.1) as Hin.
  { apply list_elem_of_lookup. exists 23%nat. by vm_compute. }
  split; [done|].
  by apply (proj1 (offset_never_doubles sample_str (inr ()) sample_timestamp
                     steady_client sample_request)).
Defined.


#[local] Abbreviation negative_period_run :=
  (get_candles_progressive sample_str (inr ()) sample_timestamp
     steady_client negative_period_request).


#[local] Abbreviation negative_days_run :=
  (get_candles_progressive sample_str (inr ()) sample_timestamp
     steady_client negative_days_request).



(** C5 as stated fails: a failure at index 0 and the same failure at
    index 12 surface as one and the same exception, which therefore
    does not tell the index. *)
Lemma failure_index_not_carried :
  length (failed_run 0%nat).1 = 1%nat
  /\ length (failed_run 12%nat).1 = 13%nat
  /\ (failed_run 0%nat).2 = inl (HTTPException 500 "timeout")
  /\ (failed_run 12%nat).2 = (failed_run 0%nat).2
  /\ ~ (exists index_of : exc + Response Z -> nat,
          index_of (failed_run 0%nat).2 = 0%nat
          /\ index_of (failed_run 12%nat).2 = 12%nat).
Proof.
  assert ((failed_run 12%nat).2 = (failed_run 0%nat).2) as Heq by (by vm_compute).
  split_and!; [by vm_compute..|done|].
  intros (index_of & H0 & H12). rewrite Heq in H12. congruence.
Qed.

Lemma failure_aborts_witness :
  (failed_run 12%nat).1 !! 12%nat = Some call_12
  /\ failing_client 12 12%nat call_12 = inl (ClientError "timeout")
  /\ (failed_run 12%nat).2 = inl (HTTPException 500 "timeout")
  /\ length (failed_run 12%nat).1 = 13%nat.
Proof.
  assert ((failed_run 12%nat).1 !! 12%nat = Some call_12) as Hlk
    by (by vm_compute).
  destruct (failure_aborts sample_str (inr ()) sample_timestamp
              (failing_client 12) sample_request 12 call_12
              (ClientError "timeout") Hlk eq_refl) as [Hres Hlen].
  split_and!; [done|reflexivity|exact Hres|exact Hlen].
Defined.

Lemma dedup_full_equality_witness :
  let l := [candle_a; candle_b; candle_a] in
  candle_a ∈ l /\ candle_b ∈ l
  /\ frozenset_items candle_a <> frozenset_items candle_b
  /\ count_occ Candle_eq_dec (unique_candles l) candle_a = 1%nat
  /\ exists i j, i <> j /\ unique_candles l !! i = Some candle_a
                 /\ unique_candles l !! j = Some candle_b.
Proof.
  intros l.
  assert (candle_a ∈ l) as Ha by (apply list_elem_of_lookup; by exists 0%nat).
  assert (candle_b ∈ l) as Hb by (apply list_elem_of_lookup; by exists 1%nat).
  assert (frozenset_items candle_a <> frozenset_items candle_b) as Hne
    by (vm_compute; discriminate).
  destruct (dedup_full_equality l) as (_ & _ & Hdiff & Honce & _).
  split_and!; [done..| |].
  - by apply Honce.
  - by apply Hdiff.
Defined.

(** Two candles that differ in the volume only are both kept, and a
    candle met twice is kept once, at its first place. *)
Example dedup_sample :
  unique_candles [candle_a; candle_b; candle_a] = [candle_a; candle_b].
Proof. reflexivity. Qed.

Lemma keeper_marks_down_witness :
  let s := (run sample_str connected_and_waiting initial).1 in
  let others := [StepCaller 1 up] in
  let down :=
    connection_keeper lost
      (run sample_str others (connection_keeper up s).1).1 in
  keeper s = LoopTop
  /\ connected (connection_status s) = true
  /\ is_Some (client s)
  /\ Forall not_keeper others
  /\ check_connect_answer lost = inr false
  /\ down.2 = [SetItem Keeper "connected"]
  /\ connected (connection_status down.1) = false
  /\ keeper down.1 = Sleeping.
Proof.
  intros s others down.
  assert (is_Some (client s)) as Hc by (by eexists).
  assert (Forall (not_keeper (instant:=Z)) others) as Ho
    by (by repeat constructor).
  destruct (keeper_marks_down sample_str s up lost others)
    as (_ & Hev & _ & Hoff & _ & Hk & _); [reflexivity|reflexivity|done|done| |].
  { by left. }
  split_and!; [reflexivity|reflexivity|done|done|reflexivity|done..].
Defined.

(** C8 as stated fails: while the second call is inside the lock, in its
    second [connect()], the keeper gets the answer of its probe and
    assigns to [connection_status]. *)
Lemma keeper_writes_inside_lock :
  let s := (run sample_str probe_during_reconnect initial).1 in
  connection_lock s = Some (Caller 1)
  /\ callers s !! 1%nat = Some AwaitReconnect
  /\ keeper s = AwaitProbe
  /\ (step sample_str (StepKeeper lost) s).2 = [SetItem Keeper "connected"]
  /\ connection_lock (step sample_str (StepKeeper lost) s).1 = Some (Caller 1).
Proof. intros s. split_and!; by vm_compute. Qed.

Lemma callers_write_under_lock_witness :
  let s := (run sample_str probe_during_reconnect initial).1 in
  SetItem (Caller 1) "connected" ∈ (step sample_str (StepCaller 1 up) s).2
  /\ ((exists i, Caller 1 = Caller i /\ connection_lock s = Some (Caller i))
      \/ (Caller 1 = Keeper /\ "connected"%string = "connected"%string
          /\ connection_lock s <> Some Keeper)).
Proof.
  intros s.
  assert (SetItem (Caller 1) "connected"
            ∈ (step sample_str (StepCaller 1 up) s).2) as Hin.
  { apply list_elem_of_lookup. by exists 0%nat. }
  split; [done|].
  by apply (proj1 (callers_write_under_lock sample_str probe_during_reconnect)
              (StepCaller 1 up)).
Defined.

Lemma connected_has_timestamp_witness :
  let s := (run sample_str connected_and_waiting initial).1 in
  connected (connection_status s) = true
  /\ is_Some (last_connected (connection_status s)).
Proof.
  intros s.
  assert (connected (connection_status s) = true) as Hon by reflexivity.
  split; [done|].
  by apply (proj1 (connected_has_timestamp sample_str connected_and_waiting)).
Defined.

(** C10 as stated fails in its last part: no run from the initial state
    reaches a status that says connected and still has an error. *)
Lemma no_stale_error_while_connected :
  ~ (exists (str : exc -> string) (sched : list (action Z)),
       let s := (run str sched initial).1 in
       connected (connection_status s) = true
       /\ last_error (connection_status s) <> None).
Proof.
  intros (str & sched & Hon & Herr).
  destruct (invariants_run str sched) as [_ (_ & HB & _)].
  by apply Herr, HB.
Qed.

#[local] Abbreviation after_reconnect_of_stale :=
  ((run sample_str
      ([StepCaller 1 up] ++ [StepKeeper up] ++ [StepCaller 1 lost]
       ++ [Spawn; StepCaller 2 up] ++ [StepCaller 1 up]) stale_state).1).

Lemma reconnect_keeps_last_error_witness :
  lock_inv stale_state
  /\ callers stale_state !! 1%nat = Some Waiting
  /\ connection_lock stale_state = None
  /\ connected (connection_status stale_state) = true
  /\ Forall (not_by 1) [StepKeeper up]
  /\ Forall (not_by 1) [Spawn; StepCaller 2 up]
  /\ check_connect_answer lost = inr false
  /\ connect_answer up = inr (true, "Websocket connected successfully"%string)
  /\ callers after_reconnect_of_stale !! 1%nat = Some Returned
  /\ connected (connection_status after_reconnect_of_stale) = true
  /\ last_error (connection_status after_reconnect_of_stale)
     = last_error (connection_status stale_state)
  /\ last_error (connection_status stale_state) = Some "Invalid credentials"%string.
Proof.
  assert (lock_inv stale_state) as Hinv.
  { split; [done|]. intros i. split; [|done].
    intros (pc & Hpc & Hin). destruct i as [|[|i]]; by simplify_eq/=. }
  assert (Forall (not_by (instant:=Z) 1) [StepKeeper up]) as H1
    by (by repeat constructor).
  assert (Forall (not_by (instant:=Z) 1) [Spawn; StepCaller 2 up]) as H2
    by (repeat constructor; simpl; lia).
  destruct (reconnect_keeps_last_error sample_str stale_state 1
              up lost up [StepKeeper up] [Spawn; StepCaller 2 up]
              "Websocket connected successfully"
              Hinv eq_refl eq_refl eq_refl H1 H2 eq_refl eq_refl)
    as (Hret & Hon & Hsame & _).
  exact (conj Hinv (conj eq_refl (conj eq_refl (conj eq_refl (conj H1 (conj H2
    (conj eq_refl (conj eq_refl (conj Hret (conj Hon (conj Hsame eq_refl))))))))))).
Defined.

End Runs.

(** ** More of the service: properties *)

Module ProgressiveMoreFacts.
Import Progressive ProgressiveMore ProgressiveFacts.

Section Dict.

Context {K V : Type} `{!EqDecision K} (key : V -> K) `{!Inj (=) (=) key}.

Lemma dict_set_values_new x (d : list (K * V)) :
  keyed key d -> x ∉ d.*2 -> (dict_set (key x) x d).*2 = d.*2 ++ [x].
Proof.
  induction 1 as [|[k v] d Hk Hd IH]; simpl in *; [done|].
  intros Hx. apply not_elem_of_cons in Hx as [Hne Hx].
  case_decide as Heq; simpl.
  - destruct Hne. apply (inj key). congruence.
  - f_equal. by apply IH.
Qed.

Lemma dict_set_values_old x (d : list (K * V)) :
  keyed key d -> x ∈ d.*2 -> (dict_set (key x) x d).*2 = d.*2.
Proof.
  induction 1 as [|[k v] d Hk Hd IH]; simpl in *; [by intros ?%elem_of_nil|].
  intros Hx. case_decide as Heq; simpl.
  - f_equal. apply (inj key). congruence.
  - f_equal. apply IH. apply elem_of_cons in Hx as [->|Hx]; [done|done].
Qed.

Lemma dict_set_values_sublist x (d : list (K * V)) :
  keyed key d -> (dict_set (key x) x d).*2 `sublist_of` d.*2 ++ [x].
Proof.
  induction 1 as [|[k v] d Hk Hd IH]; simpl in *; [done|].
  case_decide as Heq; simpl.
  - assert (v = x) as -> by (apply (inj key); congruence).
    apply sublist_skip, sublist_inserts_r. done.
  - by apply sublist_skip.
Qed.

Lemma comprehension_sublist l (d : list (K * V)) :
  keyed key d ->
  (foldl (fun d x => dict_set (key x) x d) d l).*2 `sublist_of` d.*2 ++ l.
Proof.
  revert d. induction l as [|x l IH]; simpl; intros d Hk.
  - by rewrite app_nil_r.
  - etrans; [apply IH; by apply dict_set_keyed|].
    replace (d.*2 ++ x :: l) with ((d.*2 ++ [x]) ++ l) by (by rewrite <- app_assoc).
    apply sublist_app; [|done]. by apply dict_set_values_sublist.
Qed.

Lemma comprehension_fresh l (d : list (K * V)) :
  keyed key d -> NoDup (d.*2 ++ l) ->
  (foldl (fun d x => dict_set (key x) x d) d l).*2 = d.*2 ++ l.
Proof.
  revert d. induction l as [|x l IH]; simpl; intros d Hk Hnd.
  - by rewrite app_nil_r.
  - assert (x ∉ d.*2) as Hx.
    { apply NoDup_app in Hnd as (_ & Hdis & _). intros Hin.
      apply (Hdis x Hin). by left. }
    rewrite IH; [|by apply dict_set_keyed|];
      rewrite dict_set_values_new by done.
    + by rewrite <- app_assoc.
    + by rewrite <- app_assoc.
Qed.

End Dict.

Section Facts.

Context {price : Type} `{!EqDecision price}.
Variable str : exc -> string.

#[local] Instance frozenset_items_inj' : Inj (=) (=) (frozenset_items (price:=price)).
Proof. intros [] [] [=]. by subst. Qed.

(** X1: line 288 keeps the candles in the order of their first
    arrival. A candle that arrives after the others changes nothing
    when it has arrived before, and it goes to the end when it has not;
    with the empty result for no candle this settles the result. So the
    result is the list with the later repeats struck out: it is never
    longer than the list, it is the list itself when no candle is
    repeated, and deduplicating twice changes nothing. *)
Theorem dedup_keeps_order (l : list (Candle price)) :
  unique_candles (@nil (Candle price)) = []
  /\ (forall x,
        unique_candles (l ++ [x]) =
        if decide (x ∈ l) then unique_candles l else unique_candles l ++ [x])
  /\ unique_candles l `sublist_of` l
  /\ (length (unique_candles l) <= length l)%nat
  /\ (NoDup l -> unique_candles l = l)
  /\ unique_candles (unique_candles l) = unique_candles l.
Proof.
  assert (forall l0 : list (Candle price), NoDup l0 -> unique_candles l0 = l0)
    as Hfresh.
  { intros l0 Hnd. unfold unique_candles, dict_values, dict_comprehension.
    rewrite (comprehension_fresh frozenset_items);
      [reflexivity|by apply Forall_nil|exact Hnd]. }
  assert (unique_candles l `sublist_of` l) as Hsub.
  { unfold unique_candles, dict_values, dict_comprehension.
    apply (comprehension_sublist frozenset_items l []). by apply Forall_nil. }
  split_and!; [done| |done|by apply sublist_length|by apply Hfresh|].
  - intros x.
    destruct (comprehension_spec frozenset_items l []) as (Hk & _ & Hin);
      [constructor|constructor|].
    assert (forall c, c ∈ (dict_comprehension frozenset_items l).*2 <-> c ∈ l)
      as Hin'.
    { intros c. unfold dict_comprehension. rewrite Hin, elem_of_nil. tauto. }
    unfold unique_candles, dict_values, dict_comprehension in *.
    rewrite foldl_app. simpl.
    case_decide as Hx.
    + apply (dict_set_values_old frozenset_items); [exact Hk|by apply Hin'].
    + apply (dict_set_values_new frozenset_items); [exact Hk|by rewrite Hin'].
  - apply Hfresh, unique_candles_spec.
Qed.

Section Loop.

Variables (request : CandleRequest) (size : Z).

Lemma nth_call_shift end0 off (n : nat) :
  nth_call request end0 off <$> seq 1 n =
  nth_call request (end0 + off) off <$> seq 0 n.
Proof.
  rewrite <- fmap_S_seq, <- list_fmap_compose. apply list_fmap_ext.
  intros _ j _. unfold nth_call. simpl. f_equal. lia.
Qed.

Lemma arrivals_shift (client : client_get_candles price) end0 off (n : nat) :
  arrivals client request end0 off (S n) =
  gathered (client 0%nat (nth_call request end0 off 0))
  ++ arrivals (fun j => client (S j)) request (end0 + off) off n.
Proof.
  unfold arrivals. simpl. f_equal.
  rewrite <- fmap_S_seq, <- list_fmap_compose. f_equal.
  apply list_fmap_ext. intros _ j _. simpl. do 2 f_equal.
  unfold nth_call. f_equal. lia.
Qed.

Lemma arrivals_ext (client1 client2 : client_get_candles price) end0 off n :
  (forall j c, client1 j c = client2 j c) ->
  arrivals client1 request end0 off n = arrivals client2 request end0 off n.
Proof.
  intros Hext. unfold arrivals. f_equal. apply list_fmap_ext.
  intros _ j _. simpl. by rewrite Hext.
Qed.

(** The loop in closed form, when the calls it makes do not raise. *)
Lemma loop_closed (client : client_get_candles price) idxs n st :
  Forall (fun i => i < size) idxs ->
  (forall j, (j < length idxs)%nat ->
     exists candles,
       client (n + j)%nat
         (nth_call request (end_from_time st) (request_offset st) j)
       = inr candles) ->
  progressive_loop client request size idxs n st =
  (nth_call request (end_from_time st) (request_offset st)
     <$> seq 0 (length idxs),
   inr (mkLoop
          (list_candles st
           ++ arrivals (fun j => client (n + j)%nat) request
                (end_from_time st) (request_offset st) (length idxs))
          (end_from_time st + Z.of_nat (length idxs) * request_offset st)
          (request_offset st))).
Proof.
  intros Hlt. revert n st.
  induction Hlt as [|i idxs Hi _ IH]; intros n st Hok.
  - simpl. unfold arrivals. simpl. rewrite app_nil_r, Z.add_0_r.
    by destruct st.
  - assert (nth_call request (end_from_time st) (request_offset st) 0
            = mkCall (asset request) (end_from_time st) (request_offset st)
                (period request) true) as Hc0.
    { unfold nth_call. f_equal. simpl. lia. }
    destruct (Hok 0%nat) as [candles Hans]; [simpl; lia|].
    rewrite Nat.add_0_r, Hc0 in Hans.
    cbn [progressive_loop]. rewrite Hans.
    replace (i >=? size) with false by lia.
    rewrite IH; clear IH.
    + cbn [length end_from_time request_offset list_candles].
      rewrite arrivals_shift. cbn [seq fmap list_fmap].
      rewrite nth_call_shift, Nat.add_0_r, Hc0, Hans.
      f_equal. f_equal. f_equal; [|lia].
      rewrite app_assoc. f_equal.
      * destruct candles as [[|]|]; simpl; by rewrite ?app_nil_r.
      * apply arrivals_ext. intros j c. by rewrite Nat.add_succ_r.
    + cbn [length end_from_time request_offset].
      intros j Hj. destruct (Hok (S j)) as [c Hc]; [simpl; lia|].
      exists c. rewrite <- Hc. rewrite Nat.add_succ_r. simpl. f_equal.
      unfold nth_call. f_equal. lia.
Qed.

End Loop.


(** X3: the handler makes no retrieval call at all exactly when the
    connection could not be ensured, or the period is zero, or the
    offset is [None], or the number of days is not positive. *)
Theorem no_call_cases conn T (client : client_get_candles price) request :
  (get_candles_progressive str conn T client request).1 = []
  <-> (exists e, conn = inl e) \/ period request = 0
      \/ offset request = None \/ days request <= 0.
Proof.
  rewrite handler_calls.
  destruct conn as [e|[]]; [split; eauto|].
  destruct (offset request) as [off|]; [|split; eauto].
  destruct (Z.eqb_spec (period request) 0) as [?|Hp]; [split; eauto|].
  unfold range.
  destruct (Z.to_nat (days request * 24)) as [|k] eqn:Hk.
  - split; [intros _; do 3 right; lia|done].
  - split.
    + simpl. destruct (client 0%nat _); simpl; [done|].
      by destruct (progressive_loop _ _ _ _ _ _).
    + intros [[e [=]]|[?|[[=]|?]]]; [done|lia].
Qed.

End Facts.
End ProgressiveMoreFacts.

Module ConnectionMoreFacts.
Import Connection ConnectionFacts ConnectionMore.

Section Facts.

Context {instant : Type}.
Variable str : exc -> string.

#[local] Abbreviation state := (state instant).
#[local] Abbreviation env := (env instant).
#[local] Abbreviation action := (action instant).
#[local] Abbreviation step := (step (instant:=instant) str).
#[local] Abbreviation run := (run (instant:=instant) str).

Ltac open_step :=
  unfold Connection.step, ensure_connection, connection_keeper, enter,
    after_connect, after_check, after_reconnect, mark_down, leave.

Ltac step_cases :=
  open_step; repeat case_match; simplify_eq/=.

Lemma run_snoc sched (a : action) (s : state) :
  run (sched ++ [a]) s =
  ((step a (run sched s).1).1, (run sched s).2 ++ (step a (run sched s).1).2).
Proof.
  rewrite run_app. simpl. destruct (step a _) as [s1 evs1]. simpl.
  by rewrite app_nil_r.
Qed.

(** The events of a step are by the task that takes it. *)
Lemma events_by (a : action) (s : state) ev :
  ev ∈ (step a s).2 ->
  match a with
  | Spawn => False
  | StepCaller i _ => actor_of ev = Caller i
  | StepKeeper _ => actor_of ev = Keeper
  end.
Proof.
  destruct a as [|i e|e]; step_cases;
    rewrite ?elem_of_app, ?elem_of_cons, ?elem_of_nil; naive_solver.
Qed.

(** A step of another task leaves a call where it stands. *)
Lemma others_keep_caller i (a : action) (s : state) pc :
  not_by i a -> callers s !! i = Some pc ->
  callers (step a s).1 !! i = Some pc.
Proof.
  intros Ha Hpc. destruct a as [|j e|e]; simpl.
  - by apply lookup_app_l_Some.
  - simpl in Ha.
    destruct (caller_shape str j e s)
      as [[-> _]|[(_ & _ & _ & _ & pc' & _ & ->)|(pc1 & pc' & _ & _ & -> & _)]];
      [done|by rewrite list_lookup_insert_ne..].
  - by destruct (keeper_frame str e s) as (_ & -> & _).
Qed.

Lemma others_keep_caller_run i others (s : state) pc :
  Forall (not_by i) others -> callers s !! i = Some pc ->
  callers (run others s).1 !! i = Some pc.
Proof.
  intros Hothers. revert s.
  induction Hothers as [|a others Ha _ IH]; intros s Hpc; [done|].
  rewrite run_cons. cbn [fst]. by apply IH, others_keep_caller.
Qed.

(** X4: in every reachable state the lock is free exactly when no call
    is inside [async with]: however a call leaves (return,
    [HTTPException], an exception of the client, cancellation), it
    frees the lock. *)
Theorem lock_free_when_idle sched :
  let s := (run sched initial).1 in
  connection_lock s = None
  <-> forall i pc, callers s !! i = Some pc -> inside pc = false.
Proof.
  intros s. destruct (invariants_run str sched) as [[Hk Hinv] _].
  fold s in Hk, Hinv. split.
  - intros Hfree i pc Hpc. destruct (inside pc) eqn:Hin; [|done].
    assert (connection_lock s = Some (Caller i)) by (apply Hinv; eauto).
    congruence.
  - intros Hidle. destruct (connection_lock s) as [[i|]|]; [|done..].
    destruct (proj2 (Hinv i) eq_refl) as (pc & Hpc & Hin).
    by rewrite (Hidle i pc Hpc) in Hin.
Qed.

(** One step of a call that is not kept waiting brings it nearer to
    its end. *)
Lemma caller_advances i (e : env) (s : state) pc :
  callers s !! i = Some pc ->
  pc <> Waiting \/ connection_lock s = None ->
  exists pc', callers (step (StepCaller i e) s).1 !! i = Some pc'
    /\ pc' <> Waiting
    /\ (steps_left pc' <= steps_left pc - 1)%nat.
Proof.
  intros Hpc Hgo. pose proof (lookup_lt_Some _ _ _ Hpc) as Hlt.
  simpl. unfold ensure_connection. rewrite Hpc.
  destruct pc; try (by eexists; split; [exact Hpc|split; [done|simpl; lia]]).
  - destruct Hgo as [?| ->]; [done|]. unfold enter.
    destruct (connected _); simpl; rewrite list_lookup_insert_eq by done;
      eexists; (split; [done|split; [done|simpl; lia]]).
  - step_cases; rewrite list_lookup_insert_eq by done;
      eexists; (split; [done|split; [done|simpl; lia]]).
  - step_cases; rewrite list_lookup_insert_eq by done;
      eexists; (split; [done|split; [done|simpl; lia]]).
  - step_cases; rewrite list_lookup_insert_eq by done;
      eexists; (split; [done|split; [done|simpl; lia]]).
Qed.

(** A step of a call, then steps of others. *)
Lemma caller_round i (e : env) others (s : state) pc :
  callers s !! i = Some pc ->
  pc <> Waiting \/ connection_lock s = None ->
  Forall (not_by i) others ->
  exists pc', callers (run (StepCaller i e :: others) s).1 !! i = Some pc'
    /\ pc' <> Waiting
    /\ (steps_left pc' <= steps_left pc - 1)%nat.
Proof.
  intros Hpc Hgo Hothers.
  destruct (caller_advances i e s pc Hpc Hgo) as (pc' & Hpc' & Hw & Hle).
  exists pc'. split; [|done]. rewrite run_cons. cbn [fst].
  by apply others_keep_caller_run.
Qed.

(** X5: a call of [ensure_connection] that finds the lock free has
    ended after four of its steps at the latest, whatever the client
    answers and whatever the other tasks do in between; once ended it
    does nothing more. *)
Theorem call_ends_in_four_steps (s : state) i (e1 e2 e3 e4 : env) o1 o2 o3 :
  callers s !! i = Some Waiting ->
  connection_lock s = None ->
  Forall (not_by i) o1 -> Forall (not_by i) o2 -> Forall (not_by i) o3 ->
  let s' :=
    (run ((StepCaller i e1 :: o1) ++ (StepCaller i e2 :: o2)
          ++ (StepCaller i e3 :: o3) ++ [StepCaller i e4]) s).1 in
  (exists pc, callers s' !! i = Some pc /\ finished pc = true)
  /\ forall e, step (StepCaller i e) s' = (s', []).
Proof.
  intros Hw Hfree H1 H2 H3 s'.
  destruct (caller_round i e1 o1 s _ Hw (or_intror Hfree) H1)
    as (pc1 & Hpc1 & Hw1 & Hle1).
  destruct (caller_round i e2 o2 _ _ Hpc1 (or_introl Hw1) H2)
    as (pc2 & Hpc2 & Hw2 & Hle2).
  destruct (caller_round i e3 o3 _ _ Hpc2 (or_introl Hw2) H3)
    as (pc3 & Hpc3 & Hw3 & Hle3).
  destruct (caller_round i e4 [] _ _ Hpc3 (or_introl Hw3) (Forall_nil_2 _))
    as (pc4 & Hpc4 & Hw4 & Hle4).
  assert (callers s' !! i = Some pc4) as Hs'.
  { unfold s'. rewrite !run_app. exact Hpc4. }
  simpl in Hle1.
  assert (finished pc4 = true) as Hfin.
  { destruct pc4; try done; simpl in *; destruct pc3; simpl in *; try lia;
      destruct pc2; simpl in *; try lia; destruct pc1; simpl in *; lia. }
  split; [eauto|].
  intros e. simpl. unfold ensure_connection. rewrite Hs'.
  by destruct pc4.
Qed.

Lemma connects_by_app i (evs1 evs2 : list event) :
  connects_by i (evs1 ++ evs2) = (connects_by i evs1 + connects_by i evs2)%nat.
Proof. unfold connects_by. by rewrite filter_app, length_app. Qed.

Lemma checks_by_app i (evs1 evs2 : list event) :
  checks_by i (evs1 ++ evs2) = (checks_by i evs1 + checks_by i evs2)%nat.
Proof. unfold checks_by. by rewrite filter_app, length_app. Qed.

Lemma none_by i (evs : list event) :
  (forall ev, ev ∈ evs -> actor_of ev <> Caller i) ->
  connects_by i evs = 0%nat /\ checks_by i evs = 0%nat.
Proof.
  induction evs as [|ev evs IH]; intros Hevs; [done|].
  destruct IH as [IHc IHk].
  { intros ev' Hev'. apply Hevs. by right. }
  assert (actor_of ev <> Caller i) as Hev by (apply Hevs; by left).
  unfold connects_by, checks_by in *.
  rewrite !filter_cons.
  assert (is_Connect_by i ev = false) as ->.
  { destruct ev as [[j|]| |]; try done. simpl in *.
    apply Nat.eqb_neq. congruence. }
  assert (is_CheckConnect_by i ev = false) as ->.
  { destruct ev as [|[j|]|]; try done. simpl in *.
    apply Nat.eqb_neq. congruence. }
  by repeat case_decide.
Qed.

(** What a step of a call adds to its calls of the client fits the
    place it comes to stand at. *)
Lemma own_step_budget i (e : env) (s : state) pc :
  callers s !! i = Some pc ->
  exists pc', callers (step (StepCaller i e) s).1 !! i = Some pc'
    /\ (connect_budget pc + connects_by i (step (StepCaller i e) s).2
        <= connect_budget pc')%nat
    /\ (check_budget pc + checks_by i (step (StepCaller i e) s).2
        <= check_budget pc')%nat.
Proof.
  intros Hpc. pose proof (lookup_lt_Some _ _ _ Hpc) as Hlt.
  assert (Nat.eqb i i = true) as Hii by apply Nat.eqb_refl.
  simpl. unfold ensure_connection. rewrite Hpc.
  destruct pc; try (by exists pc; rewrite Hpc); step_cases;
    rewrite ?list_lookup_insert_eq by done;
    try (eexists; split; [done|]);
    unfold connects_by, checks_by; simpl;
    rewrite ?filter_cons, ?filter_nil; simpl; rewrite ?Hii;
    repeat case_decide; simpl in *; try done; try lia.
Qed.

Lemma within_budget_step i (a : action) (s : state) c k :
  within_budget i s c k ->
  within_budget i (step a s).1
    (c + connects_by i (step a s).2) (k + checks_by i (step a s).2).
Proof.
  unfold within_budget. intros Hb.
  destruct a as [|j e|e].
  - simpl. rewrite !Nat.add_0_r.
    destruct (callers s !! i) as [pc|] eqn:Hpc.
    + by rewrite (lookup_app_l_Some _ _ _ _ Hpc).
    + destruct ((callers s ++ [Waiting]) !! i) as [pc|] eqn:Hnew; [|done].
      apply lookup_snoc_Some in Hnew as [[_ ?]|[_ <-]]; [congruence|].
      simpl. lia.
  - destruct (decide (j = i)) as [->|Hne].
    + destruct (callers s !! i) as [pc|] eqn:Hpc.
      * destruct (own_step_budget i e s pc Hpc) as (pc' & -> & Hc & Hk). lia.
      * simpl. unfold ensure_connection. rewrite Hpc. simpl.
        by rewrite Hpc, !Nat.add_0_r.
    + destruct (none_by i (step (StepCaller j e) s).2) as [-> ->].
      { intros ev Hev%events_by. congruence. }
      rewrite !Nat.add_0_r.
      destruct (callers s !! i) as [pc|] eqn:Hpc.
      * by rewrite (others_keep_caller i (StepCaller j e) s pc).
      * simpl.
        destruct (caller_shape str j e s)
          as [[-> _]|[(_ & _ & _ & _ & pc' & _ & ->)
                     |(pc1 & pc' & _ & _ & -> & _)]];
          [by rewrite Hpc|by rewrite list_lookup_insert_ne, Hpc..].
  - destruct (none_by i (step (StepKeeper e) s).2) as [-> ->].
    { intros ev Hev%events_by. congruence. }
    rewrite !Nat.add_0_r. simpl.
    by destruct (keeper_frame str e s) as (_ & -> & _).
Qed.

(** X6: in every run, a call of [ensure_connection] calls
    [client.connect()] twice at most (once to connect, once to
    reconnect) and the probe once at most. *)
Theorem at_most_two_connects sched i :
  let r := run sched initial in
  (connects_by i r.2 <= 2)%nat /\ (checks_by i r.2 <= 1)%nat.
Proof.
  intros r.
  assert (within_budget i r.1 (connects_by i r.2) (checks_by i r.2)) as Hb.
  { unfold r. induction sched as [|a sched IH] using rev_ind.
    - by unfold within_budget.
    - rewrite run_snoc. cbn [fst snd].
      rewrite connects_by_app, checks_by_app.
      by apply within_budget_step. }
  unfold within_budget in Hb.
  destruct (callers r.1 !! i) as [pc|]; [|lia].
  destruct pc; simpl in Hb; lia.
Qed.

(** How a call comes to stand at [Raised x]. *)
Lemma raised_step i (a : action) (s : state) x :
  callers (step a s).1 !! i = Some (Raised x) ->
  callers s !! i = Some (Raised x)
  \/ raises_in x a
  \/ exists msg,
       x = HTTPException 503 ("Connection error: " +:+ msg)
       \/ x = HTTPException 503 ("Reconnection failed: " +:+ msg).
Proof.
  destruct a as [|j e|e]; simpl.
  - intros [[_ ?]|[_ ?]]%lookup_snoc_Some; [by left|done].
  - step_cases; try (by left);
      intros [(-> & ? & _)|[_ ?]]%list_lookup_insert_Some;
      simplify_eq; eauto 6.
  - destruct (keeper_frame str e s) as (_ & -> & _). by left.
Qed.

Lemma raised_run sched i x :
  callers (run sched initial).1 !! i = Some (Raised x) ->
  Exists (raises_in x) sched
  \/ exists msg,
       x = HTTPException 503 ("Connection error: " +:+ msg)
       \/ x = HTTPException 503 ("Reconnection failed: " +:+ msg).
Proof.
  induction sched as [|a sched IH] using rev_ind; [done|].
  rewrite run_snoc. cbn [fst].
  intros [Hold|[Hnow|Hmsg]]%raised_step.
  - destruct (IH Hold) as [?|?]; [left|by right].
    apply Exists_app. by left.
  - left. apply Exists_app. right. by constructor.
  - by right.
Qed.


Lemma probe_inv_step (a : action) (s : state) :
  quiet_keeper a -> lock_inv s -> probe_inv s -> probe_inv (step a s).1.
Proof.
  intros Hq Hinv (HP & HC & HI). destruct a as [|i e|e].
  - simpl. split_and!; [|done|].
    + intros i [[_ Hi]|[_ ?]]%lookup_snoc_Some; [eauto|done].
    + intros i pc [[_ Hi]|[_ <-]]%lookup_snoc_Some; [eauto|done].
  - simpl. step_cases; try done;
      match goal with Hi : callers s !! i = Some _ |- _ =>
        split_and!; simpl;
        [ intros j [(-> & ? & _)|[Hne Hj]]%list_lookup_insert_Some;
          [done || congruence
          | first [ by eapply HP
                  | exfalso; apply Hne; symmetry;
                    exact (inside_unique _ _ _ _ _ Hinv Hj eq_refl Hi eq_refl)
                  | pose proof (inside_locked _ _ _ Hinv Hj eq_refl);
                    congruence ] ]
        | first [ done | by eexists | by intros; apply HC
                | by intros; eapply HI ]
        | intros j pc' [(-> & ? & _)|[Hne Hj]]%list_lookup_insert_Some ?;
          first [ by eexists | by eapply HI ] ]
      end.
  - simpl in Hq. simpl.
    assert (connection_status (connection_keeper e s).1 = connection_status s
            /\ client (connection_keeper e s).1 = client s
            /\ callers (connection_keeper e s).1 = callers s)
      as (Hst & Hcl & Hca).
    { step_cases; try done. by destruct HC. }
    unfold probe_inv. by rewrite Hst, Hcl, Hca.
Qed.

(** X8: as long as the probes of the keeper find the session alive,
    whenever a call of [ensure_connection] returns, the status says
    connected at that moment. *)
Theorem returns_connected sched i (e : env) pc :
  Forall quiet_keeper sched ->
  let s := (run sched initial).1 in
  callers s !! i = Some pc ->
  finished pc = false ->
  callers (step (StepCaller i e) s).1 !! i = Some Returned ->
  connected (connection_status (step (StepCaller i e) s).1) = true.
Proof.
  intros Hq s.
  assert (lock_inv s /\ probe_inv s) as [Hinv [HP _]].
  { unfold s. clear pc s. induction sched as [|a sched IH] using rev_ind.
    - split; [apply lock_inv_initial|]. split_and!; [|done|].
      + intros j. simpl. by rewrite lookup_nil.
      + intros j pc. simpl. by rewrite lookup_nil.
    - apply Forall_app in Hq as [Hq [Ha _]%Forall_cons].
      rewrite run_snoc. cbn [fst]. destruct (IH Hq) as [Hl Hp].
      split; [by apply lock_inv_step|by apply probe_inv_step]. }
  intros Hpc Hfin. simpl. unfold ensure_connection. rewrite Hpc.
  pose proof (lookup_lt_Some _ _ _ Hpc) as Hlt.
  destruct pc; try done; step_cases;
    rewrite ?list_lookup_insert_eq by done; try done; try congruence.
  intros _. by eapply HP.
Qed.

(** X9: in every reachable state, when the client answers a step of a
    call with values and the call ends with an exception, the exception
    is an [HTTPException] of status 503 and the status then says
    disconnected and holds an error text. *)
Theorem failure_marks_status sched i (e : env) pc x :
  let s := (run sched initial).1 in
  answers_values (StepCaller i e) ->
  callers s !! i = Some pc ->
  finished pc = false ->
  callers (step (StepCaller i e) s).1 !! i = Some (Raised x) ->
  (exists detail, x = HTTPException 503 detail)
  /\ connected (connection_status (step (StepCaller i e) s).1) = false
  /\ is_Some (last_error (connection_status (step (StepCaller i e) s).1)).
Proof.
  intros s [[r Hr] [b Hb]] Hpc Hfin.
  destruct (invariants_run str sched) as [_ (HA & _)]. fold s in HA.
  pose proof (lookup_lt_Some _ _ _ Hpc) as Hlt.
  simpl in *. unfold ensure_connection. rewrite Hpc.
  destruct pc; try done; step_cases;
    rewrite ?list_lookup_insert_eq by done; try done; try congruence;
    intros [= <-]; (split; [by eexists|]); (split; [|by eexists]);
    try done.
  by eapply HA.
Qed.

Lemma keeper_events (e : env) (s : state) :
  Forall (fun ev => ev = CheckConnect Keeper
                    \/ ev = SetItem Keeper "connected")
    (connection_keeper e s).2.
Proof.
  step_cases;
    repeat first [apply Forall_nil_2 | apply Forall_cons_2; [by eauto|]].
Qed.

Lemma keeper_frame_full (e : env) (s : state) :
  let r := connection_keeper e s in
  client r.1 = client s
  /\ connection_lock r.1 = connection_lock s
  /\ callers r.1 = callers s
  /\ last_connection_time r.1 = last_connection_time s
  /\ last_error (connection_status r.1) = last_error (connection_status s)
  /\ last_connected (connection_status r.1)
     = last_connected (connection_status s)
  /\ (connected (connection_status r.1) = true ->
      connected (connection_status s) = true).
Proof. step_cases; split_and!; first [done | congruence]. Qed.

(** X10: the keeper never calls [client.connect()]: in every run, a
    call of [connect()] is by a caller. A step of the keeper makes a
    probe or sets the key [connected], nothing else; it leaves the
    client, the lock, the callers, the error text and the two stamps as
    they are, and it never turns [connected] to true. *)
Theorem keeper_never_connects sched (s0 : state) :
  (forall a, Connect a ∈ (run sched s0).2 -> exists i, a = Caller i)
  /\ forall (e : env) (s : state),
       let r := connection_keeper e s in
       Forall (fun ev => ev = CheckConnect Keeper
                         \/ ev = SetItem Keeper "connected") r.2
       /\ client r.1 = client s
       /\ connection_lock r.1 = connection_lock s
       /\ callers r.1 = callers s
       /\ last_connection_time r.1 = last_connection_time s
       /\ last_error (connection_status r.1) = last_error (connection_status s)
       /\ last_connected (connection_status r.1)
          = last_connected (connection_status s)
       /\ (connected (connection_status r.1) = true ->
           connected (connection_status s) = true).
Proof.
  split.
  - revert s0. induction sched as [|a0 sched IH]; intros s0 a.
    + by intros ?%elem_of_nil.
    + rewrite run_cons. cbn [snd]. intros [Hnow|Hlater]%elem_of_app; [|eauto].
      destruct a0 as [|j e|e].
      * by apply events_by in Hnow.
      * apply events_by in Hnow. exists j. by simpl in Hnow.
      * pose proof (proj1 (Forall_forall _ _) (keeper_events e s0) _ Hnow)
          as [?|?]; done.
  - intros e s. split; [apply keeper_events|apply keeper_frame_full].
Qed.

Lemma caller_keeps_keeper i (e : env) (s : state) :
  keeper (ensure_connection str i e s).1 = keeper s.
Proof. step_cases; done. Qed.

(** X11: the keeper ends by cancellation only: in every reachable
    state, an exception that has stopped it is not an [Exception]; and
    when nobody cancels it, it is never stopped. *)
Theorem keeper_stops_by_cancel_only sched :
  let s := (run sched initial).1 in
  (forall x, keeper s = Stopped x -> is_Exception x = false)
  /\ (Forall no_cancel sched -> forall x, keeper s <> Stopped x).
Proof.
  split.
  - apply (run_invariant str (fun s =>
      forall x, keeper s = Stopped x -> is_Exception x = false)); [done|].
    intros a s0 Hs0 x. destruct a as [|i e|e]; simpl; [by apply Hs0| |].
    + rewrite caller_keeps_keeper. apply Hs0.
    + specialize (Hs0 x). step_cases; intros; simplify_eq; eauto.
      apply Hs0. congruence.
  - induction sched as [|a sched IH] using rev_ind; [done|].
    intros [Hsched [Ha _]%Forall_cons]%Forall_app. specialize (IH Hsched).
    rewrite run_snoc. cbn [fst]. intros x.
    destruct a as [|i e|e]; simpl; [by apply IH| |].
    + rewrite caller_keeps_keeper. apply IH.
    + destruct Ha as [Hsleep Hexc]. specialize (IH x).
      step_cases; try done; try congruence.
      intros [= <-]. specialize (Hexc _ eq_refl). congruence.
Qed.

Lemma count_connect_none (evs : list event) :
  Forall (fun ev => is_Connect ev = false) evs -> count_connect evs = 0%nat.
Proof.
  unfold count_connect. induction 1 as [|ev evs Hev _ IH]; [done|].
  rewrite filter_cons. case_decide; [congruence|done].
Qed.

Lemma connected_step (a : action) (s : state) :
  connected (connection_status s) = false ->
  connected (connection_status (step a s).1) = true ->
  exists i e reason, a = StepCaller i e /\ connect_answer e = inr (true, reason).
Proof.
  destruct a as [|i e|e]; simpl; [congruence| |].
  - step_cases; intros; try congruence; eauto.
  - destruct (keeper_frame str e s) as (_ & _ & _ & _ & _ & Hon).
    intros Hoff Hnow. rewrite (Hon Hnow) in Hnow. congruence.
Qed.

(** X12: the status turns to connected only in a step of a call in
    which [client.connect()] answers with success. So, as long as no
    call of [ensure_connection] takes a step, a disconnected status
    stays disconnected and [connect()] is not called: the keeper does
    not bring the connection back. *)
Theorem no_recovery_without_request sched (s : state) :
  connected (connection_status s) = false ->
  (forall a, connected (connection_status (step a s).1) = true ->
     exists i e reason,
       a = StepCaller i e /\ connect_answer e = inr (true, reason))
  /\ (Forall no_caller sched ->
      connected (connection_status (run sched s).1) = false
      /\ count_connect (run sched s).2 = 0%nat).
Proof.
  intros Hoff. split; [intros a; by apply connected_step|].
  intros Hsched. revert s Hoff.
  induction Hsched as [|a sched Ha _ IH]; intros s Hoff; [done|].
  rewrite run_cons. cbn [fst snd].
  assert (connected (connection_status (step a s).1) = false) as Hoff'.
  { destruct (connected (connection_status (step a s).1)) eqn:Hon; [|done].
    destruct (connected_step a s Hoff Hon) as (i & e & _ & -> & _). done. }
  destruct (IH _ Hoff') as [-> Hn]. split; [done|].
  rewrite count_connect_app, Hn, Nat.add_0_r.
  destruct a as [|i e|e]; [done|done|].
  simpl. apply count_connect_none.
  eapply Forall_impl; [apply keeper_events|].
  by intros ev [->| ->].
Qed.

Section Status.

Variable truth : instant -> bool.
Variable minus : instant -> instant -> instant.

Lemma stamps_step (a : action) (s : state) :
  match connect_succeeds a s with
  | Some (iso, t) =>
      last_connected (connection_status (step a s).1) = Some iso
      /\ last_connection_time (step a s).1 = Some t
  | None =>
      last_connected (connection_status (step a s).1)
      = last_connected (connection_status s)
      /\ last_connection_time (step a s).1 = last_connection_time s
  end.
Proof.
  destruct a as [|i e|e]; simpl; [done| |].
  - unfold ensure_connection, enter, after_connect, after_check,
      after_reconnect.
    repeat case_match; simplify_eq/=; done.
  - by destruct (keeper_frame_full e s) as (_ & _ & _ & -> & _ & -> & _).
Qed.

Lemma last_success_run sched (s : state) stamps :
  last_connected (connection_status s) = fst <$> stamps ->
  last_connection_time s = snd <$> stamps ->
  last_connected (connection_status (run sched s).1)
  = fst <$> last_success str sched s stamps
  /\ last_connection_time (run sched s).1
     = snd <$> last_success str sched s stamps.
Proof.
  revert s stamps. induction sched as [|a sched IH]; intros s stamps H1 H2.
  - done.
  - rewrite run_cons. cbn [fst last_success]. apply IH.
    + pose proof (stamps_step a s) as Hs.
      destruct (connect_succeeds a s) as [[iso t]|]; destruct Hs as [-> _];
        done.
    + pose proof (stamps_step a s) as Hs.
      destruct (connect_succeeds a s) as [[iso t]|]; destruct Hs as [_ ->];
        done.
Qed.

(** X13: what [GET /status] reports after a run from the initial
    state, in terms of the last step in which a [client.connect()] of
    a call answered with success. The report has the time of that step
    as [last_connected], and the time since that step as uptime (none
    if that clock reading is zero), also when the status says
    disconnected again. When no connect has succeeded the report says
    disconnected and has neither. A report that says connected has no
    error text and comes after a successful connect. *)
Theorem status_report sched (now : instant) :
  let s := (run sched initial).1 in
  let r := get_status truth minus now s in
  let last := last_success str sched initial None in
  (status_connected r = true -> status_last_error r = None /\ is_Some last)
  /\ status_last_connected r = fst <$> last
  /\ uptime_seconds r
     = match last with
       | Some (_, t0) => if truth t0 then Some (minus now t0) else None
       | None => None
       end
  /\ (last = None ->
      status_connected r = false
      /\ status_last_connected r = None
      /\ uptime_seconds r = None).
Proof.
  intros s r last.
  destruct (invariants_run str sched) as [_ (_ & HB & _)]. fold s in HB.
  destruct (last_success_run sched initial None eq_refl eq_refl) as [H1 H2].
  fold s last in H1, H2.
  assert (connected (connection_status s) = true ->
          is_Some (last_connected (connection_status s))) as HL.
  { apply (run_invariant str (fun s =>
      connected (connection_status s) = true ->
      is_Some (last_connected (connection_status s)))); [done|].
    intros a s0 Hs0 Hc.
    destruct (step_last_connected str a s0) as [Hkeep [Hold|Hnew]]; auto. }
  assert (uptime_seconds r
          = match last with
            | Some (_, t0) => if truth t0 then Some (minus now t0) else None
            | None => None
            end) as Hup.
  { unfold r, get_status. simpl. rewrite H2. by destruct last as [[iso t0]|]. }
  unfold r, get_status in *. simpl in *. split_and!.
  - intros Hon. split; [by apply HB|].
    apply HL in Hon. rewrite H1 in Hon. by apply fmap_is_Some in Hon.
  - done.
  - done.
  - intros Hnone. rewrite Hnone in *. split_and!; [|done|done].
    destruct (connected (connection_status s)); [|done].
    destruct HL as [? HL]; [done|]. simpl in H1. congruence.
Qed.

End Status.

End Facts.

End ConnectionMoreFacts.

Module EndpointFacts.
Import Connection ConnectionFacts ConnectionMore ConnectionMoreFacts Endpoints.

Section Facts.

Context {value amount instant price : Type} `{!EqDecision price}.
Variable str : exc -> string.
Variable str_IndexError : string.

Lemma internal_error_guarded {A : Type} conn (r : exc + A) :
  guarded conn (internal_error str r).
Proof.
  intros x. destruct r as [e|a]; simpl; [|done].
  destruct (is_Exception e) eqn:He; intros [= <-]; eauto.
Qed.

Lemma guarded_after {A : Type} conn (r : exc + A) :
  guarded (inr ()) r ->
  guarded conn (match conn with inl e => inl e | inr _ => r end).
Proof.
  intros Hr x. destruct conn as [e|[]]; [intros [= <-]; by left|].
  intros Hx. destruct (Hr x Hx) as [?|?]; [done|by right].
Qed.

(** X14: [POST /trade] never fails with status 400. A trade that the
    client reports as not placed raises the [HTTPException] of line
    381 under the [try], which turns it into one of status 500 whose
    detail is the text of the first; an [HTTPException] of another
    status can only be one that [ensure_connection] raised. A trade
    that is placed is answered with the whole dict of the client and
    with its entry ["id"], [None] when the dict has none. *)
Theorem trade_never_fails_with_400 conn (buy : client_buy value amount)
    (request : TradeRequest amount) :
  let bought :=
    buy (trade_amount request) (trade_asset request)
      (direction request) (duration request) in
  (forall status_code detail,
     place_trade str conn buy request = inl (HTTPException status_code detail) ->
     status_code = 500 \/ conn = inl (HTTPException status_code detail))
  /\ (forall buy_info, conn = inr () -> bought = inr (false, buy_info) ->
        place_trade str conn buy request
        = inl (HTTPException 500 (str (HTTPException 400 "Trade failed"))))
  /\ (forall buy_info, conn = inr () -> bought = inr (true, buy_info) ->
        place_trade str conn buy request
        = inr (mkTradeResponse "success" (buy_info !! "id") buy_info)).
Proof.
  intros bought. split_and!.
  - intros c d Hx.
    assert (guarded conn (place_trade str conn buy request)) as Hg
      by apply guarded_after, internal_error_guarded.
    destruct (Hg _ Hx) as [?|[[d' [= -> _]]|?]]; [by right|by left|done].
  - intros info -> Hb. unfold place_trade. fold bought. by rewrite Hb.
  - intros info -> Hb. unfold place_trade. fold bought. by rewrite Hb.
Qed.

(** X15: [GET /payment/{asset}] gives the entry that the table of the
    client has for the asset: the entry just put into the table is the
    one returned, and putting an entry for another asset changes
    nothing. For an asset without entry the [HTTPException] of status
    404 of line 395 is raised under the [try] and comes out with status
    500; the endpoint never fails with status 404 of its own. *)
Theorem payment_lookup conn (payment_data : gmap string value) asset :
  (forall data,
     get_payment_info str (inr ()) (inr (<[asset:=data]> payment_data)) asset
     = inr data)
  /\ (forall other data, other <> asset ->
        get_payment_info str conn (inr (<[other:=data]> payment_data)) asset
        = get_payment_info str conn (inr payment_data) asset)
  /\ (payment_data !! asset = None ->
      get_payment_info str (inr ()) (inr payment_data) asset
      = inl (HTTPException 500
               (str (HTTPException 404 ("Asset " +:+ asset +:+ " not found")))))
  /\ (forall (get_payment : exc + gmap string value) status_code detail,
        get_payment_info str conn get_payment asset
        = inl (HTTPException status_code detail) ->
        status_code = 500 \/ conn = inl (HTTPException status_code detail)).
Proof.
  split_and!.
  - intros data. unfold get_payment_info. by rewrite lookup_insert_eq.
  - intros other data Hne. unfold get_payment_info.
    by rewrite lookup_insert_ne.
  - intros Hnone. unfold get_payment_info. by rewrite Hnone.
  - intros get_payment c d Hx.
    assert (guarded conn (get_payment_info str conn get_payment asset)) as Hg
      by apply guarded_after, internal_error_guarded.
    destruct (Hg _ Hx) as [?|[[d' [= -> _]]|?]]; [by right|by left|done].
Qed.

(** X16: [GET /assets/{asset}/status], once the connection is ensured.
    It answers "Asset not found", under the symbol asked for, exactly
    when the client has no data or empty data; it answers with the name
    the client gave and the third item of the data exactly when the
    data have three items or more; and it fails exactly when the client
    raised or the data have one or two items (the [IndexError] of
    line 349). *)
Theorem asset_status_cases (client : client_get_available_asset value) asset :
  let r := check_asset_status str str_IndexError (inr ()) client asset in
  (r = inr (AssetNotFound asset false "Asset not found")
   <-> exists asset_name asset_data,
         client asset false = inr (asset_name, asset_data)
         /\ (asset_data = None \/ asset_data = Some []))
  /\ (forall asset_name is_open data,
        r = inr (AssetOpen asset_name is_open data)
        <-> client asset false = inr (asset_name, Some data)
            /\ data !! 2%nat = Some is_open)
  /\ ((exists x, r = inl x)
      <-> (exists e, client asset false = inl e)
          \/ exists asset_name data,
               client asset false = inr (asset_name, Some data)
               /\ (0 < length data < 3)%nat).
Proof.
  intros r. unfold r, check_asset_status.
  destruct (client asset false) as [e|[name [[|x1 [|x2 [|x3 data]]]|]]];
    simpl; [destruct (is_Exception e)|..];
    split_and!; try (intros; split);
    try (intros [[? [=]]|(? & ? & [= <- <-] & Hlen)]; simpl in Hlen);
    first [lia | naive_solver eauto with lia].
Qed.

Lemma progressive_guarded conn T
    (client : Progressive.client_get_candles price) request :
  guarded conn (Progressive.get_candles_progressive str conn T client request).2.
Proof.
  intros x. unfold Progressive.get_candles_progressive.
  destruct conn as [e|[]]; simpl; [intros [= <-]; by left|].
  destruct (Progressive.progressive_try T client request) as [calls [e|resp]];
    simpl; [|done].
  destruct (is_Exception e) eqn:He; simpl; intros [= <-]; eauto.
Qed.

Lemma asset_status_guarded conn (client : client_get_available_asset value) asset :
  guarded conn (check_asset_status str str_IndexError conn client asset).
Proof.
  apply guarded_after. intros x.
  destruct (client asset false) as [e|[name [[|x1 [|x2 [|x3 data]]]|]]];
    simpl; try done; try (intros [= <-]; eauto).
  destruct (is_Exception e) eqn:He; intros [= <-]; eauto.
Qed.

Lemma guarded_answers {A : Type} conn (r : exc + A) :
  (forall x, conn = inl x ->
     (exists detail, x = HTTPException 503 detail)
     \/ forall c d, x <> HTTPException c d) ->
  guarded conn r -> answers_500_or_503 str r.
Proof.
  intros Hconn Hg x resp Hx Hresp.
  destruct (Hg x Hx) as [Hc|[[d ->]|Hne]].
  - destruct (Hconn x Hc) as [[d ->]|Hnot].
    + simpl in Hresp. injection Hresp as <-. by right.
    + destruct x as [c d| | | |]; simpl in Hresp;
        try (injection Hresp as <-; by left);
        [by destruct (Hnot c d)|done].
  - simpl in Hresp. injection Hresp as <-. by left.
  - by destruct x.
Qed.

(** X17: let a call of [ensure_connection] have ended in a run in
    which the client raised no [HTTPException] of its own. Whatever
    the client answers to the endpoint that awaited the call, a failure
    of [POST /connect], [GET /candles], [POST /candles/progressive],
    [GET /assets/{asset}/status], [POST /trade] or [GET /payment/{asset}]
    that has a handler is answered with status 500 or 503, never with
    400 or 404. *)
Theorem failures_answer_500_or_503 sched i pc conn :
  (forall x, Exists (raises_in x) sched -> forall c d, x <> HTTPException c d) ->
  callers (run (instant:=instant) str sched initial).1 !! i = Some pc ->
  outcome pc = Some conn ->
  answers_500_or_503 str (connect conn)
  /\ (forall now (client : client_get_candles instant price)
        asset period offset end_time,
        answers_500_or_503 str
          (get_candles str conn now client asset period offset end_time))
  /\ (forall T (client : Progressive.client_get_candles price) request,
        answers_500_or_503 str
          (Progressive.get_candles_progressive str conn T client request).2)
  /\ (forall (client : client_get_available_asset value) asset,
        answers_500_or_503 str
          (check_asset_status str str_IndexError conn client asset))
  /\ (forall (buy : client_buy value amount) request,
        answers_500_or_503 str (place_trade str conn buy request))
  /\ (forall (get_payment : exc + gmap string value) asset,
        answers_500_or_503 str (get_payment_info str conn get_payment asset)).
Proof.
  intros Hclient Hpc Hout.
  assert (forall x, conn = inl x ->
            (exists detail, x = HTTPException 503 detail)
            \/ forall c d, x <> HTTPException c d) as Hconn.
  { intros x ->. destruct pc; try done. simpl in Hout.
    injection Hout as ->.
    destruct (raised_run str sched i x Hpc) as [Hx|[msg [->| ->]]]; eauto. }
  split_and!; intros; apply (guarded_answers conn); try done.
  - apply guarded_after. by intros x.
  - apply guarded_after, internal_error_guarded.
  - apply progressive_guarded.
  - apply asset_status_guarded.
  - apply guarded_after, internal_error_guarded.
  - apply guarded_after, internal_error_guarded.
Qed.

End Facts.

End EndpointFacts.

Module UsageFacts.
Import Progressive Usage.

Section Facts.

Context {price : Type}.
Variable greater : price -> price -> bool.
Variable strftime : Z -> exc + string.

Lemma last_items_app {A : Type} (n : nat) (old l : list A) :
  length l = n -> last_items n (old ++ l) = l.
Proof.
  intros <-. unfold last_items. rewrite length_app.
  replace (length old + length l - length l)%nat with (length old) by lia.
  by rewrite drop_app_length.
Qed.

Lemma last_items_length {A : Type} (n : nat) (l : list A) :
  length (last_items n l) = Nat.min n (length l).
Proof. unfold last_items. rewrite length_drop. lia. Qed.

Lemma sum_shift (zs : list Z) (a : Z) : foldl Z.add a zs = a + foldl Z.add 0 zs.
Proof.
  revert a. induction zs as [|z zs IH]; intros a; cbn [foldl]; [lia|].
  rewrite (IH (a + z)), (IH (0 + z)). lia.
Qed.

Lemma recent_trend_ups (l : list (Candle price)) :
  recent_trend greater l = 2 * Z.of_nat (ups greater l) - Z.of_nat (length l).
Proof.
  unfold recent_trend, ups.
  induction l as [|c l IH]; [done|].
  rewrite fmap_cons, filter_cons. simpl. rewrite sum_shift, IH.
  destruct (up greater c); case_decide; simpl; try done; lia.
Qed.

Lemma analyze_nonempty (c : Candle price) l :
  analyze_candles greater strftime (Some (c :: l)) =
  let '(lines, stopped) :=
    show_candles greater strftime (last_items 3 (last_items 10 (c :: l))) in
  Some (mkAnalysis (length (c :: l)) lines
          match stopped with
          | Some e => inl e
          | None => inr (trend_of (recent_trend greater (last_items 10 (c :: l))))
          end).
Proof. done. Qed.

Lemma ups_le (l : list (Candle price)) : (ups greater l <= length l)%nat.
Proof. unfold ups. apply length_filter. Qed.

(** X18: the trend that [analyze_candles] prints counts, among the
    last ten candles, those that closed above their open against the
    others. It is [BULLISH] exactly when the first outnumber the others
    by more than three (seven or more of ten), [BEARISH] in the
    mirrored case, and always [NEUTRAL] for three candles or fewer. *)
Theorem trend_counts_last_ten (candles : list (Candle price)) :
  let latest := last_items 10 candles in
  let n := length latest in
  let u := ups greater latest in
  (forall a t, analyze_candles greater strftime (Some candles) = Some a ->
     trend_line a = inr t -> t = trend_of (recent_trend greater latest))
  /\ (n <= 10)%nat /\ (u <= n)%nat
  /\ recent_trend greater latest = 2 * Z.of_nat u - Z.of_nat n
  /\ (trend_of (recent_trend greater latest) = BULLISH
      <-> (2 * u > n + 3)%nat)
  /\ (trend_of (recent_trend greater latest) = BEARISH
      <-> (2 * u + 3 < n)%nat)
  /\ ((n <= 3)%nat -> trend_of (recent_trend greater latest) = NEUTRAL)
  /\ (n = 10%nat ->
      (trend_of (recent_trend greater latest) = BULLISH <-> (7 <= u)%nat)
      /\ (trend_of (recent_trend greater latest) = BEARISH <-> (u <= 3)%nat)).
Proof.
  intros latest n u. split.
  { intros a t. destruct candles as [|c l]; [done|].
    rewrite analyze_nonempty. fold latest.
    destruct (show_candles _ _ _) as [lines [e|]]; intros [= <-]; simpl;
      congruence. }
  assert (n <= 10)%nat as Hn by (unfold n, latest; rewrite last_items_length; lia).
  pose proof (ups_le latest) as Hu. fold u n in Hu.
  pose proof (recent_trend_ups latest) as Ht. fold u n in Ht.
  rewrite Ht. unfold trend_of.
  destruct (Z.gtb_spec (2 * Z.of_nat u - Z.of_nat n) 3) as [Hgt|Hgt];
    [|destruct (Z.ltb_spec (2 * Z.of_nat u - Z.of_nat n) (-3)) as [Hlt|Hlt]];
    split_and!; try done; try lia;
    try (split; intros; first [done | lia]);
    try (intros; first [done | lia]);
    intros Hten; split; split; intros; first [done | lia].
Qed.

(** X19: only the last ten candles count. Candles put in front of ten
    candles change the number of candles that is printed and nothing
    else: the same candles are shown, and the analysis ends with the
    same trend or with the same exception. *)
Theorem older_candles_do_not_count (old l : list (Candle price)) :
  length l = 10%nat ->
  exists a b,
    analyze_candles greater strftime (Some l) = Some a
    /\ analyze_candles greater strftime (Some (old ++ l)) = Some b
    /\ last_three b = last_three a
    /\ trend_line b = trend_line a
    /\ total a = 10%nat
    /\ total b = (length old + 10)%nat.
Proof.
  intros Hl.
  assert (exists c l', l = c :: l') as (c & l' & Hc)
    by (destruct l; [done|eauto]).
  assert (exists c0 l0, old ++ l = c0 :: l0) as (c0 & l0 & Hc0)
    by (destruct old; simpl; [rewrite Hc|]; eauto).
  rewrite Hc0, Hc, !analyze_nonempty, <- Hc0, <- Hc.
  assert (last_items 10 l = l) as Hself by exact (last_items_app 10 [] l Hl).
  rewrite (last_items_app 10 old l Hl), Hself.
  destruct (show_candles _ _ _) as [lines stopped].
  eexists _, _. split_and!; [done|done|done|done|done|].
  simpl. rewrite length_app. by rewrite Hl.
Qed.

End Facts.

End UsageFacts.

Module MoreRuns.
Import Progressive Connection Samples MoreSamples.
Import ProgressiveMore ProgressiveMoreFacts ConnectionMore ConnectionMoreFacts.
Import Endpoints EndpointFacts Usage UsageFacts.

Lemma dedup_keeps_order_witness :
  NoDup [candle_a; candle_b]
  /\ unique_candles [candle_a; candle_b] = [candle_a; candle_b]
  /\ unique_candles ([candle_a; candle_b] ++ [candle_a])
     = (if decide (candle_a ∈ [candle_a; candle_b])
        then unique_candles [candle_a; candle_b]
        else unique_candles [candle_a; candle_b] ++ [candle_a])
  /\ unique_candles [candle_a; candle_b; candle_a] = [candle_a; candle_b].
Proof.
  assert (NoDup [candle_a; candle_b]) as Hnd.
  { apply NoDup_cons. split; [by intros [=]%list_elem_of_singleton|].
    apply NoDup_singleton. }
  destruct (dedup_keeps_order [candle_a; candle_b]) as (_ & Hs & _ & _ & H & _).
  exact (conj Hnd (conj (H Hnd) (conj (Hs candle_a) eq_refl))).
Defined.

#[local] Abbreviation sample_size := (Z.to_nat (days sample_request * 24)).

#[local] Abbreviation sample_end :=
  ((sample_timestamp - sample_timestamp mod period sample_request) + 3600).


#[local] Abbreviation waiting_state :=
  ((run sample_str connected_and_waiting (initial (instant:=Z))).1).

#[local] Abbreviation after_four_steps :=
  ((run sample_str
      ((StepCaller 1 Samples.up :: [StepKeeper Samples.up])
       ++ (StepCaller 1 lost :: [])
       ++ (StepCaller 1 Samples.up :: [Spawn])
       ++ [StepCaller 1 Samples.up]) waiting_state).1).

Lemma call_ends_in_four_steps_witness :
  callers waiting_state !! 1%nat = Some Waiting
  /\ connection_lock waiting_state = None
  /\ Forall (not_by 1) [StepKeeper Samples.up]
  /\ Forall (not_by (instant:=Z) 1) []
  /\ Forall (not_by (instant:=Z) 1) [Spawn]
  /\ (exists pc, callers after_four_steps !! 1%nat = Some pc
                 /\ finished pc = true)
  /\ forall e, step sample_str (StepCaller 1 e) after_four_steps
               = (after_four_steps, []).
Proof.
  assert (callers waiting_state !! 1%nat = Some Waiting) as H1
    by (by vm_compute).
  assert (connection_lock waiting_state = None) as H2 by (by vm_compute).
  assert (Forall (not_by 1) [StepKeeper Samples.up]) as H3
    by (by repeat constructor).
  assert (Forall (not_by (instant:=Z) 1) []) as H4 by constructor.
  assert (Forall (not_by (instant:=Z) 1) [Spawn]) as H5
    by (by repeat constructor).
  destruct (call_ends_in_four_steps sample_str waiting_state 1
              Samples.up lost Samples.up Samples.up _ _ _ H1 H2 H3 H4 H5)
    as [Ha Hb].
  split_and!; [done|done|done|done|done|exact Ha|exact Hb].
Defined.


#[local] Abbreviation probing_state :=
  ((run sample_str second_call_probing (initial (instant:=Z))).1).

Lemma returns_connected_witness :
  Forall quiet_keeper second_call_probing
  /\ callers probing_state !! 1%nat = Some AwaitCheck
  /\ finished AwaitCheck = false
  /\ callers (step sample_str (StepCaller 1 Samples.up) probing_state).1
       !! 1%nat = Some Returned
  /\ connected (connection_status
       (step sample_str (StepCaller 1 Samples.up) probing_state).1) = true.
Proof.
  assert (Forall (quiet_keeper (instant:=Z)) second_call_probing) as Hq
    by (by repeat constructor).
  assert (callers probing_state !! 1%nat = Some AwaitCheck) as H1
    by (by vm_compute).
  assert (callers (step sample_str (StepCaller 1 Samples.up) probing_state).1
            !! 1%nat = Some Returned) as H2 by (by vm_compute).
  split_and!; [done|done|done|done|].
  exact (returns_connected sample_str second_call_probing 1 Samples.up
           AwaitCheck Hq H1 eq_refl H2).
Defined.

#[local] Abbreviation pending_state :=
  ((run sample_str first_connect_pending (initial (instant:=Z))).1).

#[local] Abbreviation refused_error :=
  (HTTPException 503
     "Connection error: 503: Failed to connect: Invalid credentials").

Lemma failure_marks_status_witness :
  answers_values (StepCaller 0 refused)
  /\ callers pending_state !! 0%nat = Some AwaitConnect
  /\ finished AwaitConnect = false
  /\ callers (step sample_str (StepCaller 0 refused) pending_state).1 !! 0%nat
     = Some (Raised refused_error)
  /\ (exists detail, refused_error = HTTPException 503 detail)
  /\ connected (connection_status
       (step sample_str (StepCaller 0 refused) pending_state).1) = false
  /\ is_Some (last_error (connection_status
       (step sample_str (StepCaller 0 refused) pending_state).1)).
Proof.
  assert (answers_values (StepCaller 0 refused)) as Hv
    by (split; simpl; eauto).
  assert (callers pending_state !! 0%nat = Some AwaitConnect) as H1
    by (by vm_compute).
  assert (callers (step sample_str (StepCaller 0 refused) pending_state).1
            !! 0%nat = Some (Raised refused_error)) as H2 by (by vm_compute).
  destruct (failure_marks_status sample_str first_connect_pending 0 refused
              AwaitConnect refused_error Hv H1 eq_refl H2) as (Ha & Hb & Hc).
  split_and!; [done|done|done|done|exact Ha|exact Hb|exact Hc].
Defined.

Lemma keeper_never_connects_witness :
  Connect (Caller 0)
    ∈ (run sample_str refused_then_up (initial (instant:=Z))).2
  /\ exists i, Caller 0 = Caller i.
Proof.
  assert (Connect (Caller 0)
            ∈ (run sample_str refused_then_up (initial (instant:=Z))).2) as H.
  { apply list_elem_of_lookup. exists 0%nat. by vm_compute. }
  split; [exact H|].
  destruct (keeper_never_connects sample_str refused_then_up
              (initial (instant:=Z))) as [Ha _].
  exact (Ha _ H).
Defined.

Lemma keeper_stops_by_cancel_only_witness :
  Forall no_cancel keeper_alone
  /\ forall x,
       keeper (run sample_str keeper_alone (initial (instant:=Z))).1
       <> Stopped x.
Proof.
  assert (Forall (no_cancel (instant:=Z)) keeper_alone) as H.
  { repeat constructor; simpl; intros x [=]. }
  split; [exact H|].
  destruct (keeper_stops_by_cancel_only sample_str keeper_alone) as [_ Hb].
  exact (Hb H).
Defined.

Lemma no_recovery_without_request_witness :
  connected (connection_status (initial (instant:=Z))) = false
  /\ Forall no_caller keeper_alone
  /\ connected (connection_status
       (run sample_str keeper_alone (initial (instant:=Z))).1) = false
  /\ count_connect (run sample_str keeper_alone (initial (instant:=Z))).2
     = 0%nat.
Proof.
  assert (Forall (no_caller (instant:=Z)) keeper_alone) as H
    by (by repeat constructor).
  destruct (no_recovery_without_request sample_str keeper_alone
              (initial (instant:=Z)) eq_refl) as [_ Hb].
  destruct (Hb H) as [Hc Hd].
  split_and!; [reflexivity|exact H|exact Hc|exact Hd].
Defined.

#[local] Abbreviation sample_report :=
  (get_status sample_truth Z.sub 1704067260 waiting_state).

#[local] Abbreviation report_after_loss :=
  (get_status sample_truth Z.sub 1704067260
     (run sample_str reconnected_then_lost (initial (instant:=Z))).1).

Lemma status_report_witness :
  status_connected sample_report = true
  /\ status_last_error sample_report = None
  /\ is_Some (last_success sample_str connected_and_waiting
                (initial (instant:=Z)) None)
  /\ status_connected report_after_loss = false
  /\ status_last_connected report_after_loss = Some "2024-01-01T00:00:30"%string
  /\ uptime_seconds report_after_loss = Some 30.
Proof.
  assert (status_connected sample_report = true) as H by (by vm_compute).
  destruct (status_report sample_str sample_truth Z.sub connected_and_waiting
              1704067260) as [Ha _].
  destruct (Ha H) as [Hb Hc].
  destruct (status_report sample_str sample_truth Z.sub reconnected_then_lost
              1704067260) as (_ & Hd & He & _).
  assert (last_success sample_str reconnected_then_lost
            (initial (instant:=Z)) None
          = Some ("2024-01-01T00:00:30"%string, 1704067230)) as Hl
    by (by vm_compute).
  rewrite Hl in Hd, He.
  exact (conj H (conj Hb (conj Hc (conj eq_refl (conj Hd He))))).
Defined.

Lemma trade_never_fails_with_400_witness :
  refusing_buy (trade_amount sample_trade) (trade_asset sample_trade)
    (direction sample_trade) (duration sample_trade) = inr (false, ∅)
  /\ place_trade sample_str (inr ()) refusing_buy sample_trade
     = inl (HTTPException 500 (sample_str (HTTPException 400 "Trade failed"))).
Proof.
  destruct (trade_never_fails_with_400 sample_str (inr ()) refusing_buy
              sample_trade) as (_ & Hb & _).
  split; [reflexivity|].
  exact (Hb ∅ eq_refl eq_refl).
Defined.

Lemma payment_lookup_witness :
  trade_info_without_id !! "id" = None
  /\ get_payment_info sample_str (inr ()) (inr trade_info_without_id) "id"
     = inl (HTTPException 500
              (sample_str (HTTPException 404
                 ("Asset " +:+ "id" +:+ " not found")))).
Proof.
  assert (trade_info_without_id !! "id" = None) as H by (by vm_compute).
  destruct (payment_lookup sample_str (inr ()) trade_info_without_id "id")
    as (_ & _ & Hc & _).
  split; [exact H|exact (Hc H)].
Defined.

Lemma failures_answer_500_or_503_witness :
  (forall x, Exists (raises_in x) refused_then_up ->
     forall c d, x <> HTTPException c d)
  /\ callers (run sample_str refused_then_up (initial (instant:=Z))).1 !! 0%nat
     = Some (Raised refused_error)
  /\ outcome (Raised refused_error) = Some refused_outcome
  /\ answers_500_or_503 sample_str (connect refused_outcome)
  /\ forall (buy : client_buy Z Z) request,
       answers_500_or_503 sample_str
         (place_trade sample_str refused_outcome buy request).
Proof.
  assert (forall x, Exists (raises_in x) refused_then_up ->
            forall c d, x <> HTTPException c d) as Hx.
  { intros x Hx.
    repeat (apply Exists_cons in Hx as [Hx|Hx]; [by destruct Hx|]).
    by apply Exists_nil in Hx. }
  assert (callers (run sample_str refused_then_up (initial (instant:=Z))).1
            !! 0%nat = Some (Raised refused_error)) as H1 by (by vm_compute).
  destruct (failures_answer_500_or_503 (value:=Z) (amount:=Z) (price:=Z)
              sample_str str_IndexError refused_then_up 0
              (Raised refused_error) refused_outcome Hx H1 eq_refl)
    as (Ha & _ & _ & _ & Hb & _).
  split_and!; [exact Hx|exact H1|reflexivity|exact Ha|exact Hb].
Defined.

#[local] Abbreviation three_candles := [rising; rising; rising].

Lemma trend_counts_last_ten_witness :
  (length (last_items 10 three_candles) <= 3)%nat
  /\ trend_of (recent_trend Z.gtb (last_items 10 three_candles)) = NEUTRAL.
Proof.
  assert (length (last_items 10 three_candles) <= 3)%nat as H
    by (vm_compute; lia).
  destruct (trend_counts_last_ten Z.gtb sample_strftime three_candles)
    as (_ & _ & _ & _ & _ & _ & Hc & _).
  split; [exact H|exact (Hc H)].
Defined.

Lemma older_candles_do_not_count_witness :
  length ten_candles = 10%nat
  /\ exists a b,
       analyze_candles Z.gtb sample_strftime (Some ten_candles) = Some a
       /\ analyze_candles Z.gtb sample_strftime
            (Some ([falling; falling] ++ ten_candles)) = Some b
       /\ last_three b = last_three a
       /\ trend_line b = trend_line a
       /\ total a = 10%nat
       /\ total b = (length [falling; falling] + 10)%nat.
Proof.
  split; [reflexivity|].
  exact (older_candles_do_not_count Z.gtb sample_strftime [falling; falling]
           ten_candles eq_refl).
Defined.

End MoreRuns.
